(** * Combination engine of the modulation catalogue

    A shallow embedding of [generate_combined_progressions.py]: the
    compatibility test, the chord splice with its pitch-class re-basing, the
    all-pairs enumeration with its running id counter, and the part of
    [main] that sits between the catalogue loader and the statistics.

    Modelling choices.
    - A JSON object read with [d['k']] is a record whose fields are options:
      [None] is an absent key, and reading it raises [KeyError].  Field
      values have the types of the data model (integers are [Z], Python's
      integers being unbounded).
    - Exceptions are the [Raise] branch of [result]; statements run in the
      order of the source, so the first exception is the one reported.
    - [copy.deepcopy] is the identity: values here are immutable.
    - [list(set(xs))] yields the distinct members of [xs] in an order the
      source does not fix (for strings it follows the interpreter's hash of
      the process); that order is the [SetOrder] parameter of a run.
    - The [print] calls are left out: every key they read has been read
      before on the same path.  The float of the growth factor is kept as
      the exact quotient. *)

From Stdlib Require Import ZArith QArith.
From stdpp Require Import base numbers strings list.

Local Open Scope Z_scope.

(** ** Exceptions *)

Inductive PyError : Type :=
| KeyError (key : string)
| ValueError
| ZeroDivisionError.

Inductive result (A : Type) : Type :=
| Ok (v : A)
| Raise (e : PyError).

Arguments Ok {A} v.
Arguments Raise {A} e.

#[global] Instance result_ret : MRet result := λ A v, Ok v.

#[global] Instance result_bind : MBind result :=
  λ A B f m, match m with Ok v => f v | Raise e => Raise e end.

(** [d[key]] on an object whose field [key] is [field]. *)
Definition getitem {A : Type} (key : string) (field : option A) : result A :=
  match field with
  | Some v => Ok v
  | None => Raise (KeyError key)
  end.

(** A [for x in xs] loop whose body updates the loop state or raises. *)
Fixpoint for_each {A S : Type} (body : S → A → result S) (xs : list A) (s : S)
  : result S :=
  match xs with
  | [] => Ok s
  | x :: rest => s' ← body s x; for_each body rest s'
  end.

(** [max] over a sequence of integers; the empty sequence is a [ValueError]. *)
Definition py_max (xs : list Z) : result Z :=
  match xs with
  | [] => Raise ValueError
  | x :: rest => Ok (foldl Z.max x rest)
  end.

(** [xs[:-1]]: the stop index [-1] is [len(xs) - 1], clamped at [0]. *)
Definition all_but_last {A : Type} (xs : list A) : list A :=
  take (length xs - 1)%nat xs.

(** [a / b] on two lengths. *)
Definition truediv (a b : nat) : result Q :=
  if decide (b = 0%nat) then Raise ZeroDivisionError
  else Ok (Qmake (Z.of_nat a) (Pos.of_nat b)).

(** The iteration order of a set built from a list of strings. *)
Class SetOrder : Type := {
  set_to_list : list string → list string;
  set_to_list_NoDup : ∀ xs, NoDup (set_to_list xs);
  set_to_list_elem : ∀ xs x, x ∈ set_to_list xs ↔ x ∈ xs
}.

(** ** Records *)

Section Engine.

(** The fields of a chord that the engine copies without reading. *)
Context {Extra : Type}.

Record Chord : Type := {
  key_root : option Z;
  comment : option string;
  payload : Extra
}.

Record Progression : Type := {
  id : option Z;
  modulation_technique : option string;
  style : option (list string);
  from_mode : option string;
  to_root : option Z;
  to_mode : option string;
  chords : option (list Chord)
}.

Definition deepcopy (chord : Chord) : Chord := chord.

(** ** The engine *)

Definition are_compatible (prog1 prog2 : Progression) : result bool :=
  tm ← getitem "to_mode" (to_mode prog1);
  fm ← getitem "from_mode" (from_mode prog2);
  Ok (bool_decide (tm = fm)).

(** The body of the second loop of [combine_progressions], up to the
    [append]. *)
Definition rebased_chord (offset : Z) (chord : Chord) : result Chord :=
  let new_chord := deepcopy chord in
  k ← getitem "key_root" (key_root new_chord);
  let new_chord :=
    {| key_root := Some ((k + offset) mod 12);
       comment := comment new_chord;
       payload := payload new_chord |} in
  let new_chord :=
    match comment new_chord with
    | Some c =>
        {| key_root := key_root new_chord;
           comment := Some ("[from prog2] " +:+ c);
           payload := payload new_chord |}
    | None => new_chord
    end in
  Ok new_chord.

(** [new_progression['chords'].append(c)] *)
Definition append_chord (new_progression : Progression) (c : Chord)
  : result Progression :=
  cs ← getitem "chords" (chords new_progression);
  Ok {| id := id new_progression;
        modulation_technique := modulation_technique new_progression;
        style := style new_progression;
        from_mode := from_mode new_progression;
        to_root := to_root new_progression;
        to_mode := to_mode new_progression;
        chords := Some (cs ++ [c]) |}.

Context `{order : SetOrder}.

Definition combine_progressions (prog1 prog2 : Progression) (new_id : Z)
  : result Progression :=
  t1 ← getitem "modulation_technique" (modulation_technique prog1);
  t2 ← getitem "modulation_technique" (modulation_technique prog2);
  s1 ← getitem "style" (style prog1);
  s2 ← getitem "style" (style prog2);
  fm ← getitem "from_mode" (from_mode prog1);
  r1 ← getitem "to_root" (to_root prog1);
  r2 ← getitem "to_root" (to_root prog2);
  tm ← getitem "to_mode" (to_mode prog2);
  let new_progression :=
    {| id := Some new_id;
       modulation_technique := Some ("combo " +:+ t1 +:+ " " +:+ t2);
       style := Some (set_to_list (s1 ++ s2));
       from_mode := Some fm;
       to_root := Some ((r1 + r2) mod 12);
       to_mode := Some tm;
       chords := Some [] |} in
  c1 ← getitem "chords" (chords prog1);
  new_progression ←
    for_each (λ np chord, append_chord np (deepcopy chord))
             (all_but_last c1) new_progression;
  offset ← getitem "to_root" (to_root prog1);
  c2 ← getitem "chords" (chords prog2);
  for_each (λ np chord, new_chord ← rebased_chord offset chord;
                        append_chord np new_chord)
           c2 new_progression.

(** The body of the inner loop: the state is [(combined, next_id)]. *)
Definition try_pair (prog1 : Progression) (st : list Progression * Z)
    (prog2 : Progression) : result (list Progression * Z) :=
  ok ← are_compatible prog1 prog2;
  if ok : bool then
    combined_prog ← combine_progressions prog1 prog2 st.2;
    Ok (st.1 ++ [combined_prog], st.2 + 1)
  else Ok st.

Definition generate_combined_progressions (modulations : list Progression)
  : result (list Progression) :=
  ids ← mapM (λ md, getitem "id" (id md)) modulations;
  m ← py_max ids;
  let combined := [] in
  let next_id := m + 1 in
  st ← for_each (λ st prog1, for_each (try_pair prog1) modulations st)
                modulations (combined, next_id);
  Ok st.1.

(** [main] from the loaded catalogue on: the first component is what
    [save_modulations] wrote ([None] when the run stopped before), the
    second the growth factor or the exception that ended the run. *)
Definition main (modulations : list Progression)
  : option (list Progression) * result Q :=
  let original_count := length modulations in
  match generate_combined_progressions modulations with
  | Raise e => (None, Raise e)
  | Ok combined =>
      let expanded_modulations := modulations ++ combined in
      let total_count := length expanded_modulations in
      (Some expanded_modulations, truediv total_count original_count)
  end.

End Engine.

Arguments Chord : clear implicits.
Arguments Progression : clear implicits.

(** ** Shape of the records *)

Section Shape.

Context {Extra : Type}.

(** A chord the second loop can re-base. *)
Definition chord_ok (c : Chord Extra) : Prop := is_Some (key_root c).

(** Every key the engine reads is present.  The chord sequence may be
    empty. *)
Definition well_formed (p : Progression Extra) : Prop :=
  is_Some (id p) ∧ is_Some (modulation_technique p) ∧ is_Some (style p) ∧
  is_Some (from_mode p) ∧ is_Some (to_root p) ∧ is_Some (to_mode p) ∧
  from_option (Forall chord_ok) False (chords p).

#[global] Instance well_formed_dec p : Decision (well_formed p).
Proof. unfold well_formed, chord_ok. destruct (chords p); apply _. Defined.

(** The two keys the compatibility test reads. *)
Definition has_modes (p : Progression Extra) : Prop :=
  is_Some (from_mode p) ∧ is_Some (to_mode p).

(** [b] can begin where [a] ends. *)
Definition chains (a b : Progression Extra) : Prop :=
  is_Some (to_mode a) ∧ to_mode a = from_mode b.

#[global] Instance chains_dec a b : Decision (chains a b).
Proof. unfold chains. apply _. Defined.

(** The ordered cross product of the catalogue with itself: outer position
    first, inner position second, self-pairs included. *)
Definition ordered_pairs (catalog : list (Progression Extra))
  : list (Progression Extra * Progression Extra) :=
  p1 ← catalog; pair p1 <$> catalog.

Definition compatible_pairs (catalog : list (Progression Extra))
  : list (Progression Extra * Progression Extra) :=
  filter (λ pq, chains pq.1 pq.2) (ordered_pairs catalog).

(** Two records that differ at most in the order of their style tags. *)
Definition same_but_style_order (p q : Progression Extra) : Prop :=
  id p = id q ∧ modulation_technique p = modulation_technique q ∧
  from_mode p = from_mode q ∧ to_root p = to_root q ∧
  to_mode p = to_mode q ∧ chords p = chords q ∧
  option_Forall2 (≡ₚ) (style p) (style q).

(** The loop state of two runs: the records agree up to the order of their
    style tags, the counters are equal. *)
Definition states_agree (st1 st2 : list (Progression Extra) * Z) : Prop :=
  Forall2 same_but_style_order st1.1 st2.1 ∧ st1.2 = st2.2.

Context `{order : SetOrder}.

(** The enumeration in the words of the design: one record per pair, each
    with the next unused id. *)
Fixpoint combine_all (pairs : list (Progression Extra * Progression Extra))
    (next_id : Z) : result (list (Progression Extra)) :=
  match pairs with
  | [] => Ok []
  | pq :: rest =>
      r ← combine_progressions pq.1 pq.2 next_id;
      rs ← combine_all rest (next_id + 1);
      Ok (r :: rs)
  end.

Definition generateAll_spec (catalog : list (Progression Extra))
  : result (list (Progression Extra)) :=
  ids ← mapM (λ p, getitem "id" (id p)) catalog;
  m ← py_max ids;
  combine_all (compatible_pairs catalog) (m + 1).

End Shape.

(** Two outcomes of the same kind: the same exception, or related values. *)
Inductive result_Forall2 {A B : Type} (R : A → B → Prop)
  : result A → result B → Prop :=
| Ok_Forall2 a b : R a b → result_Forall2 R (Ok a) (Ok b)
| Raise_Forall2 e : result_Forall2 R (Raise e) (Raise e).

(** ** Two iteration orders *)

(** The distinct members, each at the place of its last occurrence. *)
Program Definition forward_order : SetOrder :=
  {| set_to_list := remove_dups |}.
Next Obligation. apply NoDup_remove_dups. Qed.
Next Obligation. intros xs x. apply elem_of_remove_dups. Qed.

(** The same members, the other way round. *)
Program Definition backward_order : SetOrder :=
  {| set_to_list := λ xs, reverse (remove_dups xs) |}.
Next Obligation.
  intros xs. rewrite reverse_Permutation. apply NoDup_remove_dups.
Qed.
Next Obligation.
  intros xs x. rewrite elem_of_reverse. apply elem_of_remove_dups.
Qed.

(** ** Sample records *)

Definition chord_at (k : Z) : Chord unit :=
  {| key_root := Some k; comment := None; payload := () |}.

(** The two progressions of the worked example of the design. *)
Definition prog_A : Progression unit :=
  {| id := Some 1; modulation_technique := Some "pivot";
     style := Some ["jazz"; "pop"];
     from_mode := Some "ionian"; to_root := Some 2; to_mode := Some "dorian";
     chords := Some [chord_at 0; chord_at 2] |}.

Definition prog_B : Progression unit :=
  {| id := Some 2; modulation_technique := Some "chromatic";
     style := Some ["classical"; "jazz"];
     from_mode := Some "dorian"; to_root := Some 5;
     to_mode := Some "mixolydian";
     chords := Some [chord_at 0; chord_at 3; chord_at 5] |}.

(** A progression that ends in the mode it starts in. *)
Definition prog_loop : Progression unit :=
  {| id := Some 7; modulation_technique := Some "sequence";
     style := Some ["baroque"];
     from_mode := Some "dorian"; to_root := Some 7; to_mode := Some "dorian";
     chords := Some [chord_at 0; chord_at 7] |}.

(** A record whose chord sequence is empty. *)
Definition prog_hollow : Progression unit :=
  {| id := Some 3; modulation_technique := Some "none";
     style := Some [];
     from_mode := Some "dorian"; to_root := Some 0; to_mode := Some "ionian";
     chords := Some [] |}.

(** A record without [chords] whose modes meet no other record. *)
Definition prog_stray : Progression unit :=
  {| id := Some 4; modulation_technique := Some "enharmonic";
     style := Some ["film"];
     from_mode := Some "locrian"; to_root := Some 6; to_mode := Some "lydian";
     chords := None |}.

(** A record without [id], and one without [from_mode]. *)
Definition prog_anon : Progression unit :=
  {| id := None; modulation_technique := Some "pivot";
     style := Some [];
     from_mode := Some "ionian"; to_root := Some 0; to_mode := Some "ionian";
     chords := Some [chord_at 0] |}.

Definition prog_rootless : Progression unit :=
  {| id := Some 9; modulation_technique := Some "pivot";
     style := Some [];
     from_mode := None; to_root := Some 0; to_mode := Some "phrygian";
     chords := Some [chord_at 0] |}.

(** ** Further shapes *)

Section MoreShape.

Context {Extra : Type}.

(** The keys [combine_progressions] reads from its two arguments: neither
    [id], nor [a.to_mode], nor [b.from_mode], nor the [key_root] of a chord
    of [a] is among them. *)
Definition combinable (a b : Progression Extra) : Prop :=
  is_Some (modulation_technique a) ∧ is_Some (modulation_technique b) ∧
  is_Some (style a) ∧ is_Some (style b) ∧
  is_Some (from_mode a) ∧ is_Some (to_root a) ∧ is_Some (to_root b) ∧
  is_Some (to_mode b) ∧ is_Some (chords a) ∧
  from_option (Forall chord_ok) False (chords b).

#[global] Instance combinable_dec a b : Decision (combinable a b).
Proof. unfold combinable, chord_ok. destruct (chords b); apply _. Defined.

(** A chord whose [key_root] is a pitch class. *)
Definition in_pitch_range (c : Chord Extra) : Prop :=
  ∃ k, key_root c = Some k ∧ 0 ≤ k < 12.



End MoreShape.

(** A [key_root], when present, moved by [offset] and reduced. *)
Definition shifted (offset : Z) (k : option Z) : option Z :=
  (λ k, (k + offset) mod 12) <$> k.

(** A progression whose last chord carries a comment. *)
Definition chord_noted : Chord unit :=
  {| key_root := Some 10; comment := Some "arrival"; payload := () |}.

Definition prog_noted : Progression unit :=
  {| id := Some 5; modulation_technique := Some "modal";
     style := Some ["folk"; "jazz"];
     from_mode := Some "dorian"; to_root := Some 10; to_mode := Some "aeolian";
     chords := Some [chord_at 0; chord_noted] |}.

(** A record whose chord sequence is empty and whose root is not zero. *)
Definition prog_hollow_up : Progression unit :=
  {| id := Some 6; modulation_technique := Some "common tone";
     style := Some ["film"];
     from_mode := Some "ionian"; to_root := Some 3; to_mode := Some "dorian";
     chords := Some [] |}.

(** The keys the engine reads. *)
Definition engine_keys : list string :=
  ["id"; "to_mode"; "from_mode"; "modulation_technique"; "style";
   "to_root"; "chords"; "key_root"].

Definition missing_engine_key (e : PyError) : Prop :=
  ∃ k, k ∈ engine_keys ∧ e = KeyError k.

(** A computation whose exceptions all satisfy [P]. *)
Definition raises_only {A : Type} (P : PyError → Prop) (m : result A) : Prop :=
  ∀ e, m = Raise e → P e.

(** * Properties *)

(** ** The error monad and the loops *)

Lemma bind_Ok {A B : Type} (f : A → result B) (v : A) : (Ok v ≫= f) = f v.
Proof. reflexivity. Qed.

Lemma bind_Raise {A B : Type} (f : A → result B) (e : PyError) :
  (Raise e ≫= f) = Raise e.
Proof. reflexivity. Qed.

Lemma bind_Ok_inv {A B : Type} (f : A → result B) (m : result A) (w : B) :
  (m ≫= f) = Ok w → ∃ v, m = Ok v ∧ f v = Ok w.
Proof. destruct m as [v|e]; [eauto | discriminate]. Qed.

Lemma getitem_Ok_inv {A : Type} (key : string) (field : option A) (v : A) :
  getitem key field = Ok v → field = Some v.
Proof. destruct field; simpl; congruence. Qed.

Lemma mapM_Ok_Forall2 {A B : Type} (f : A → result B) xs ys :
  mapM f xs = Ok ys ↔ Forall2 (λ x y, f x = Ok y) xs ys.
Proof.
  revert ys. induction xs as [|x xs IH]; intros ys; simpl.
  - split; [intros [= <-]; constructor | by inversion 1].
  - split.
    + intros Hm. apply bind_Ok_inv in Hm as (y & Hy & Hm).
      apply bind_Ok_inv in Hm as (ys' & Hys & [= <-]).
      constructor; [done | by apply IH].
    + inversion 1 as [|? y ? ys' Hy Hys]; subst.
      apply IH in Hys. by rewrite Hy, Hys.
Qed.

Lemma mapM_Ok_length {A B : Type} (f : A → result B) xs ys :
  mapM f xs = Ok ys → length ys = length xs.
Proof. intros Hm%mapM_Ok_Forall2. symmetry. by eapply Forall2_length. Qed.

Lemma for_each_app {A S : Type} (body : S → A → result S) xs ys s :
  for_each body (xs ++ ys) s = s' ← for_each body xs s; for_each body ys s'.
Proof.
  revert s. induction xs as [|x xs IH]; intros s; simpl; [done|].
  destruct (body s x); simpl; [apply IH | done].
Qed.

Lemma for_each_related {A S T : Type} (R : S → T → Prop)
    (body1 : S → A → result S) (body2 : T → A → result T) xs :
  (∀ s t x, R s t → result_Forall2 R (body1 s x) (body2 t x)) →
  ∀ s t, R s t → result_Forall2 R (for_each body1 xs s) (for_each body2 xs t).
Proof.
  intros Hbody. induction xs as [|x xs IH]; intros s t Hst; simpl.
  - by constructor.
  - destruct (Hbody s t x Hst); simpl; [by apply IH | constructor].
Qed.

Lemma foldl_max_bounds (xs : list Z) (x : Z) :
  let m := foldl Z.max x xs in
  (m = x ∨ m ∈ xs) ∧ x ≤ m ∧ ∀ y, y ∈ xs → y ≤ m.
Proof.
  revert x. induction xs as [|z xs IH]; intros x; simpl.
  - split; [by left|]. split; [lia|]. intros y Hy. by apply elem_of_nil in Hy.
  - destruct (IH (x `max` z)) as (Hin & Hle & Hall). split; [|split].
    + destruct Hin as [->|Hin]; [|right; by right].
      destruct (Z.max_spec x z) as [[_ ->]|[_ ->]]; [right; left | by left].
    + lia.
    + intros y [->|Hy]%elem_of_cons; [lia | by apply Hall].
Qed.

Lemma py_max_Ok (xs : list Z) (m : Z) :
  py_max xs = Ok m → m ∈ xs ∧ ∀ y, y ∈ xs → y ≤ m.
Proof.
  destruct xs as [|x xs]; simpl; [discriminate|]. intros [= <-].
  destruct (foldl_max_bounds xs x) as (Hin & Hle & Hall). split.
  - destruct Hin as [->|Hin]; [left | by right].
  - intros y [->|Hy]%elem_of_cons; [done | by apply Hall].
Qed.

Lemma py_max_nonempty (xs : list Z) : xs ≠ [] → ∃ m, py_max xs = Ok m.
Proof. destruct xs; [done | simpl; eauto]. Qed.

Lemma all_but_last_length {A : Type} (xs : list A) :
  length (all_but_last xs) = (length xs - 1)%nat.
Proof. unfold all_but_last. rewrite length_take. lia. Qed.

Lemma all_but_last_lookup {A : Type} (xs : list A) (i : nat) :
  (i < length xs - 1)%nat → all_but_last xs !! i = xs !! i.
Proof. intros Hi. unfold all_but_last. by rewrite lookup_take_lt. Qed.

Lemma all_but_last_nil {A : Type} : all_but_last (@nil A) = [].
Proof. reflexivity. Qed.

(** ** The splice *)

Section Splice.

Context {Extra : Type} `{order : SetOrder}.

Implicit Types (a b p r : Progression Extra) (c : Chord Extra).
Implicit Types (cs xs ys : list (Chord Extra)).

Lemma rebased_chord_Ok offset c k :
  key_root c = Some k →
  rebased_chord offset c =
    Ok {| key_root := Some ((k + offset) mod 12);
          comment := String.app "[from prog2] " <$> comment c;
          payload := payload c |}.
Proof.
  intros Hk. unfold rebased_chord, deepcopy. rewrite Hk. simpl.
  by destruct (comment c).
Qed.

Lemma rebased_chord_key_root offset c c' :
  rebased_chord offset c = Ok c' →
  ∃ k, key_root c = Some k ∧ key_root c' = Some ((k + offset) mod 12).
Proof.
  unfold rebased_chord, deepcopy. destruct (key_root c) as [k|]; [|done].
  simpl. destruct (comment c); intros [= <-]; eauto.
Qed.

Lemma rebased_chords_Ok offset cs :
  Forall chord_ok cs → ∃ ys, mapM (rebased_chord offset) cs = Ok ys.
Proof.
  induction 1 as [|c cs [k Hk] _ [ys IH]]; [by exists []|].
  eexists. simpl. rewrite (rebased_chord_Ok _ _ _ Hk), IH. reflexivity.
Qed.

(** The first loop appends the chords it walks over, as they are. *)
Lemma copy_loop i t s f tr tm cs xs :
  for_each (λ np chord, append_chord np (deepcopy chord)) xs
    {| id := i; modulation_technique := t; style := s; from_mode := f;
       to_root := tr; to_mode := tm; chords := Some cs |} =
  Ok {| id := i; modulation_technique := t; style := s; from_mode := f;
        to_root := tr; to_mode := tm; chords := Some (cs ++ xs) |}.
Proof.
  revert cs. induction xs as [|x xs IH]; intros cs; simpl.
  - by rewrite app_nil_r.
  - unfold append_chord at 1. simpl. rewrite IH.
    by rewrite <- app_assoc.
Qed.

(** The second loop appends the re-based chords, or stops at the first
    chord without [key_root]. *)
Lemma rebase_loop offset i t s f tr tm cs xs :
  for_each (λ np chord, new_chord ← rebased_chord offset chord;
                        append_chord np new_chord) xs
    {| id := i; modulation_technique := t; style := s; from_mode := f;
       to_root := tr; to_mode := tm; chords := Some cs |} =
  ys ← mapM (rebased_chord offset) xs;
  Ok {| id := i; modulation_technique := t; style := s; from_mode := f;
        to_root := tr; to_mode := tm; chords := Some (cs ++ ys) |}.
Proof.
  revert cs. induction xs as [|x xs IH]; intros cs; simpl.
  - by rewrite app_nil_r.
  - destruct (rebased_chord offset x) as [x'|e]; simpl; [|done].
    unfold append_chord at 1. simpl. rewrite IH.
    destruct (mapM (rebased_chord offset) xs); simpl; [|done].
    by rewrite <- app_assoc.
Qed.

(** [combine_progressions] with its two loops replaced by what they
    compute. *)
Lemma combine_progressions_eq a b n :
  combine_progressions a b n =
  t1 ← getitem "modulation_technique" (modulation_technique a);
  t2 ← getitem "modulation_technique" (modulation_technique b);
  s1 ← getitem "style" (style a);
  s2 ← getitem "style" (style b);
  fm ← getitem "from_mode" (from_mode a);
  r1 ← getitem "to_root" (to_root a);
  r2 ← getitem "to_root" (to_root b);
  tm ← getitem "to_mode" (to_mode b);
  c1 ← getitem "chords" (chords a);
  c2 ← getitem "chords" (chords b);
  ys ← mapM (rebased_chord r1) c2;
  Ok {| id := Some n;
        modulation_technique := Some ("combo " +:+ t1 +:+ " " +:+ t2);
        style := Some (set_to_list (s1 ++ s2));
        from_mode := Some fm;
        to_root := Some ((r1 + r2) mod 12);
        to_mode := Some tm;
        chords := Some (all_but_last c1 ++ ys) |}.
Proof.
  unfold combine_progressions.
  destruct (modulation_technique a); simpl; [|done].
  destruct (modulation_technique b); simpl; [|done].
  destruct (style a); simpl; [|done].
  destruct (style b); simpl; [|done].
  destruct (from_mode a); simpl; [|done].
  destruct (to_root a); simpl; [|done].
  destruct (to_root b); simpl; [|done].
  destruct (to_mode b); simpl; [|done].
  destruct (chords a); simpl; [|done].
  rewrite copy_loop. simpl.
  destruct (chords b); simpl; [|done].
  by rewrite rebase_loop.
Qed.

End Splice.

(** ** Claims about [combine_progressions] *)

Section Combine.

Context {Extra : Type} `{order : SetOrder}.

Implicit Types (a b : Progression Extra) (ca cb rc : list (Chord Extra)).

(** On two well-formed records the combination returns, and this is the
    record it returns. *)
Lemma combine_progressions_wf a b n :
  well_formed a → well_formed b →
  ∃ t1 t2 s1 s2 fm r1 r2 tm c1 c2 ys,
    modulation_technique a = Some t1 ∧ modulation_technique b = Some t2 ∧
    style a = Some s1 ∧ style b = Some s2 ∧
    from_mode a = Some fm ∧ to_root a = Some r1 ∧ to_root b = Some r2 ∧
    to_mode b = Some tm ∧ chords a = Some c1 ∧ chords b = Some c2 ∧
    Forall2 (λ c c', rebased_chord r1 c = Ok c') c2 ys ∧
    combine_progressions a b n =
      Ok {| id := Some n;
            modulation_technique := Some ("combo " +:+ t1 +:+ " " +:+ t2);
            style := Some (set_to_list (s1 ++ s2));
            from_mode := Some fm;
            to_root := Some ((r1 + r2) mod 12);
            to_mode := Some tm;
            chords := Some (all_but_last c1 ++ ys) |}.
Proof.
  intros (_ & [t1 Ht1] & [s1 Hs1] & [fm Hfm] & [r1 Hr1] & _ & Hca)
         (_ & [t2 Ht2] & [s2 Hs2] & _ & [r2 Hr2] & [tm Htm] & Hcb).
  destruct (chords a) as [c1|] eqn:Hc1; [clear Hca | done].
  destruct (chords b) as [c2|] eqn:Hc2; [simpl in Hcb | done].
  destruct (rebased_chords_Ok r1 c2 Hcb) as [ys Hys].
  exists t1, t2, s1, s2, fm, r1, r2, tm, c1, c2, ys.
  repeat (split; [done|]). split; [by apply mapM_Ok_Forall2|].
  rewrite combine_progressions_eq, Ht1, Ht2, Hs1, Hs2, Hfm, Hr1, Hr2, Htm.
  rewrite Hc1, Hc2. simpl. by rewrite Hys.
Qed.

(** C1. Root additivity: the combination of two well-formed progressions
    returns a progression whose [to_root] is the sum of the two [to_root]s
    modulo 12.  Neither compatibility nor non-empty chord lists are needed
    for it. *)
Theorem combine_root_additivity a b n ra rb :
  well_formed a → well_formed b →
  to_root a = Some ra → to_root b = Some rb →
  ∃ r, combine_progressions a b n = Ok r ∧
       to_root r = Some ((ra + rb) mod 12).
Proof.
  intros Ha Hb Hra Hrb.
  destruct (combine_progressions_wf a b n Ha Hb)
    as (t1 & t2 & s1 & s2 & fm & r1 & r2 & tm & c1 & c2 & ys & Hr);
    destruct_and!.
  eexists. split; [eassumption|]. simpl. congruence.
Qed.

(** C2. Chord count law: when the chord list of [a] is not empty, the
    combination has [len(a.chords) + len(b.chords) - 1] chords. *)
Theorem combine_chord_count a b n ca cb :
  well_formed a → well_formed b →
  chords a = Some ca → chords b = Some cb → ca ≠ [] →
  ∃ r rc, combine_progressions a b n = Ok r ∧ chords r = Some rc ∧
          length rc = (length ca + length cb - 1)%nat.
Proof.
  intros Ha Hb Hca Hcb Hne.
  destruct (combine_progressions_wf a b n Ha Hb)
    as (t1 & t2 & s1 & s2 & fm & r1 & r2 & tm & c1 & c2 & ys & Hr);
    destruct_and!.
  assert (c1 = ca) as -> by congruence. assert (c2 = cb) as -> by congruence.
  eexists _, _. split; [eassumption|]. split; [reflexivity|].
  rewrite length_app, all_but_last_length.
  assert (length cb = length ys) as -> by by eapply Forall2_length.
  destruct ca; [done | simpl; lia].
Qed.

(** C3. Join-point re-basing: in the combination, the last [len(b.chords)]
    chords are the chords of [b] with [key_root] shifted by [a.to_root]
    modulo 12, and the chords before them are those of [a] but its last,
    unchanged.  Compatibility of the pair is not needed for it. *)
Theorem combine_join_point_rebasing a b n ta ca cb :
  well_formed a → well_formed b →
  to_root a = Some ta → chords a = Some ca → chords b = Some cb →
  ∃ r rc, combine_progressions a b n = Ok r ∧ chords r = Some rc ∧
    (∀ i c k, cb !! i = Some c → key_root c = Some k →
       ∃ c', rc !! (length rc - length cb + i)%nat = Some c' ∧
             key_root c' = Some ((k + ta) mod 12)) ∧
    (∀ i, (i < length ca - 1)%nat → rc !! i = ca !! i).
Proof.
  intros Ha Hb Hta Hca Hcb.
  destruct (combine_progressions_wf a b n Ha Hb)
    as (t1 & t2 & s1 & s2 & fm & r1 & r2 & tm & c1 & c2 & ys & Hr);
    destruct_and!.
  assert (c1 = ca) as -> by congruence. assert (c2 = cb) as -> by congruence.
  assert (r1 = ta) as -> by congruence.
  assert (length cb = length ys) as Hlen by by eapply Forall2_length.
  eexists _, _. split; [eassumption|]. split; [reflexivity|]. split.
  - intros i c k Hi Hk.
    destruct (Forall2_lookup_l _ _ _ _ _ ltac:(eassumption) Hi)
      as (c' & Hi' & Hc').
    exists c'. split.
    + rewrite length_app, Hlen.
      replace (length (all_but_last ca) + length ys - length ys + i)%nat
        with (length (all_but_last ca) + i)%nat by lia.
      by rewrite lookup_app_r, Nat.add_comm, Nat.add_sub by lia.
    + apply rebased_chord_key_root in Hc' as (k' & Hk' & ->). congruence.
  - intros i Hi. rewrite lookup_app_l by (rewrite all_but_last_length; lia).
    by apply all_but_last_lookup.
Qed.

(** C8. Endpoint chaining: the combination starts in the mode [a] starts in
    and ends in the mode [b] ends in. *)
Theorem combine_endpoint_chaining a b n :
  well_formed a → well_formed b →
  ∃ r, combine_progressions a b n = Ok r ∧
       from_mode r = from_mode a ∧ to_mode r = to_mode b.
Proof.
  intros Ha Hb.
  destruct (combine_progressions_wf a b n Ha Hb)
    as (t1 & t2 & s1 & s2 & fm & r1 & r2 & tm & c1 & c2 & ys & Hr);
    destruct_and!.
  eexists. split; [eassumption|]. simpl. by split.
Qed.

(** C10. Empty left chord list: when [a.chords] is empty the combination
    does not raise; [a.chords[:-1]] is empty, and the chords of the result
    are exactly the re-based copies of [b.chords], as many as [b] has: the
    [i]-th one is the [i]-th chord of [b] with [key_root] moved by
    [a.to_root] and reduced modulo 12, with the marker in front of its
    comment when it has one, and with its other fields as they were. *)
Theorem combine_empty_left_chords a b n ta cb :
  well_formed a → well_formed b →
  to_root a = Some ta → chords a = Some [] → chords b = Some cb →
  ∃ r rc, combine_progressions a b n = Ok r ∧ chords r = Some rc ∧
          mapM (rebased_chord ta) cb = Ok rc ∧ length rc = length cb ∧
          ∀ (i : nat) (c : Chord Extra), cb !! i = Some c →
            ∃ k, key_root c = Some k ∧
                 rc !! i =
                   Some {| key_root := Some ((k + ta) mod 12);
                           comment := String.app "[from prog2] " <$> comment c;
                           payload := payload c |}.
Proof.
  intros Ha Hb Hta Hca Hcb.
  destruct (combine_progressions_wf a b n Ha Hb)
    as (t1 & t2 & s1 & s2 & fm & r1 & r2 & tm & c1 & c2 & ys &
        _ & _ & _ & _ & _ & Hr1 & _ & _ & Hc1 & Hc2 & Hys & Hr).
  assert (c1 = []) as -> by congruence. assert (c2 = cb) as -> by congruence.
  assert (r1 = ta) as -> by congruence.
  eexists _, _. split; [exact Hr|]. rewrite all_but_last_nil. simpl.
  split; [done|]. split; [by apply mapM_Ok_Forall2|].
  split; [symmetry; by eapply Forall2_length|].
  intros i c Hi.
  destruct (Forall2_lookup_l _ _ _ _ _ Hys Hi) as (c' & Hi' & Hc').
  destruct (rebased_chord_key_root _ _ _ Hc') as (k & Hk & _).
  exists k. split; [done|].
  rewrite (rebased_chord_Ok _ _ _ Hk) in Hc'. injection Hc' as <-. done.
Qed.

End Combine.

(** ** The compatibility test *)

Section Compatibility.

Context {Extra : Type}.

Implicit Types (a b : Progression Extra).

Lemma are_compatible_Ok a b (tm fm : string) :
  to_mode a = Some tm → from_mode b = Some fm →
  are_compatible a b = Ok (bool_decide (tm = fm)).
Proof. intros Ha Hb. unfold are_compatible. by rewrite Ha, Hb. Qed.

Lemma chains_iff a b (tm fm : string) :
  to_mode a = Some tm → from_mode b = Some fm → chains a b ↔ tm = fm.
Proof.
  intros Ha Hb. unfold chains. rewrite Ha, Hb. split.
  - by intros [_ [= ->]].
  - intros ->. split; [by eexists | done].
Qed.

(** C4, as amended. On two well-formed records [are_compatible] returns,
    raising nothing, and it returns true exactly when [a.to_mode] equals
    [b.from_mode]; [b.to_mode] plays no part. *)
Theorem are_compatible_iff_chains a b :
  well_formed a → well_formed b →
  ∃ v, are_compatible a b = Ok v ∧ (v = true ↔ to_mode a = from_mode b).
Proof.
  intros (_ & _ & _ & _ & _ & [tm Htm] & _) (_ & _ & _ & [fm Hfm] & _).
  exists (bool_decide (tm = fm)). split; [by apply are_compatible_Ok|].
  rewrite Htm, Hfm, bool_decide_eq_true. split; congruence.
Qed.

End Compatibility.

(** C4, as stated, fails on a progression that ends in the mode it starts
    in, paired with itself: the test returns true although [a.to_mode] and
    [b.to_mode] are equal. *)
Lemma are_compatible_ignores_to_mode_of_b :
  well_formed prog_loop ∧
  ¬ ∃ v, are_compatible prog_loop prog_loop = Ok v ∧
         (v = true ↔ to_mode prog_loop ≠ to_mode prog_loop) ∧
         (v = true ↔ to_mode prog_loop = from_mode prog_loop).
Proof.
  split; [compute_done|]. intros (v & Hv & Hdiff & _).
  vm_compute in Hv. injection Hv as <-. by apply Hdiff.
Qed.

Lemma are_compatible_iff_chains_witness :
  ∃ v, are_compatible prog_A prog_B = Ok v ∧
       (v = true ↔ to_mode prog_A = from_mode prog_B).
Proof.
  apply (are_compatible_iff_chains prog_A prog_B); compute_done.
Defined.

(** ** The enumeration *)

Section Enumerate.

Context {Extra : Type} `{order : SetOrder}.

Implicit Types (p : Progression Extra) (catalog ps : list (Progression Extra)).
Implicit Types (pairs : list (Progression Extra * Progression Extra)).

Lemma combine_progressions_id (a b r : Progression Extra) (n : Z) :
  combine_progressions a b n = Ok r → id r = Some n.
Proof.
  rewrite combine_progressions_eq. intros Hr.
  repeat (apply bind_Ok_inv in Hr as (? & _ & Hr)).
  by injection Hr as <-.
Qed.

Lemma combine_all_app pairs1 pairs2 (n : Z) :
  combine_all (pairs1 ++ pairs2) n =
  rs1 ← combine_all pairs1 n;
  rs2 ← combine_all pairs2 (n + Z.of_nat (length rs1));
  Ok (rs1 ++ rs2).
Proof.
  revert n. induction pairs1 as [|pq pairs1 IH]; intros n; simpl.
  - rewrite Z.add_0_r. by destruct (combine_all pairs2 n).
  - destruct (combine_progressions pq.1 pq.2 n) as [r|e]; simpl; [|done].
    rewrite IH. destruct (combine_all pairs1 (n + 1)) as [rs1|e]; simpl; [|done].
    replace (n + Z.of_nat (S (length rs1))) with (n + 1 + Z.of_nat (length rs1)) by lia.
    by destruct (combine_all pairs2 _).
Qed.

Lemma combine_all_Ok pairs (n : Z) rs :
  combine_all pairs n = Ok rs →
  length rs = length pairs ∧
  ∀ (k : nat) pq, pairs !! k = Some pq →
    ∃ r, rs !! k = Some r ∧ combine_progressions pq.1 pq.2 (n + Z.of_nat k) = Ok r.
Proof.
  revert n rs. induction pairs as [|pq pairs IH]; intros n rs; simpl.
  - intros [= <-]. split; [done|]. intros k pq Hk. by destruct k.
  - intros Hrs. apply bind_Ok_inv in Hrs as (r & Hr & Hrs).
    apply bind_Ok_inv in Hrs as (rs' & Hrs' & [= <-]).
    destruct (IH _ _ Hrs') as (Hlen & Hall). split; [simpl; lia|].
    intros [|k] pq' Hk; simpl in *.
    + injection Hk as <-. exists r. by rewrite Z.add_0_r.
    + destruct (Hall k pq' Hk) as (r' & Hk' & Hr'). exists r'.
      split; [done|]. by replace (n + Z.of_nat (S k)) with (n + 1 + Z.of_nat k) by lia.
Qed.

Lemma combine_all_wf pairs (n : Z) :
  Forall (λ pq, well_formed pq.1 ∧ well_formed pq.2) pairs →
  ∃ rs, combine_all pairs n = Ok rs.
Proof.
  intros Hwf. revert n.
  induction Hwf as [|pq pairs [Ha Hb] _ IH]; intros n; simpl; [by eexists|].
  destruct (combine_progressions_wf pq.1 pq.2 n Ha Hb)
    as (? & ? & ? & ? & ? & ? & ? & ? & ? & ? & ? & Hr).
  do 11 destruct Hr as [_ Hr].
  destruct (IH (n + 1)) as [rs Hrs].
  eexists. by rewrite Hr, Hrs.
Qed.

Lemma ordered_pairs_elem catalog p1 p2 :
  (p1, p2) ∈ ordered_pairs catalog ↔ p1 ∈ catalog ∧ p2 ∈ catalog.
Proof.
  unfold ordered_pairs. rewrite list_elem_of_bind. split.
  - intros (q & [q' [[= -> ->] ?]]%list_elem_of_fmap & ?). done.
  - intros [? ?]. exists p1. split; [|done]. apply list_elem_of_fmap. eauto.
Qed.

Lemma compatible_pairs_elem catalog p1 p2 :
  (p1, p2) ∈ compatible_pairs catalog ↔
  p1 ∈ catalog ∧ p2 ∈ catalog ∧ chains p1 p2.
Proof.
  unfold compatible_pairs. rewrite list_elem_of_filter, ordered_pairs_elem.
  simpl. tauto.
Qed.

Lemma compatible_pairs_wf catalog :
  Forall well_formed catalog →
  Forall (λ pq, well_formed pq.1 ∧ well_formed pq.2) (compatible_pairs catalog).
Proof.
  rewrite !Forall_forall. intros Hwf [p1 p2].
  rewrite compatible_pairs_elem. intros (? & ? & _). split; by apply Hwf.
Qed.

Lemma try_pair_eq p1 p2 (tm fm : string) (acc : list (Progression Extra)) n :
  to_mode p1 = Some tm → from_mode p2 = Some fm →
  try_pair p1 (acc, n) p2 =
  if bool_decide (tm = fm)
  then r ← combine_progressions p1 p2 n; Ok (acc ++ [r], n + 1)
  else Ok (acc, n).
Proof.
  intros Htm Hfm. unfold try_pair.
  by rewrite (are_compatible_Ok _ _ _ _ Htm Hfm).
Qed.

(** The inner loop, for one left operand. *)
Lemma inner_loop_spec p1 ps (acc : list (Progression Extra)) (n : Z) :
  is_Some (to_mode p1) → Forall (λ p, is_Some (from_mode p)) ps →
  for_each (try_pair p1) ps (acc, n) =
  rs ← combine_all (filter (λ pq, chains pq.1 pq.2) (pair p1 <$> ps)) n;
  Ok (acc ++ rs, n + Z.of_nat (length rs)).
Proof.
  intros [tm Htm] Hps. revert acc n.
  induction Hps as [|p ps [fm Hfm] _ IH]; intros acc n.
  - simpl. by rewrite app_nil_r, Z.add_0_r.
  - cbn [for_each]. rewrite (try_pair_eq _ _ _ _ _ _ Htm Hfm).
    rewrite fmap_cons, filter_cons. cbn [fst snd].
    destruct (decide (chains p1 p)) as [Hc|Hc];
      rewrite (chains_iff _ _ _ _ Htm Hfm) in Hc.
    + rewrite bool_decide_eq_true_2 by done. cbn [combine_all fst snd].
      destruct (combine_progressions p1 p n) as [r|e]; [|done].
      rewrite !bind_Ok, IH.
      destruct (combine_all _ (n + 1)) as [rs|e]; [|done].
      rewrite !bind_Ok, <- app_assoc. cbn [length app]. do 2 f_equal. lia.
    + rewrite bool_decide_eq_false_2 by done. rewrite bind_Ok. apply IH.
Qed.

(** The outer loop over a suffix [ps] of the catalogue. *)
Lemma outer_loop_spec catalog ps (acc : list (Progression Extra)) (n : Z) :
  Forall has_modes catalog → Forall has_modes ps →
  for_each (λ st prog1, for_each (try_pair prog1) catalog st) ps (acc, n) =
  rs ← combine_all
         (filter (λ pq, chains pq.1 pq.2) (p1 ← ps; pair p1 <$> catalog)) n;
  Ok (acc ++ rs, n + Z.of_nat (length rs)).
Proof.
  intros Hcat Hps. revert acc n.
  induction Hps as [|p ps [_ Hp] _ IH]; intros acc n.
  - simpl. by rewrite app_nil_r, Z.add_0_r.
  - cbn [for_each]. rewrite inner_loop_spec; [|done|].
    2:{ eapply Forall_impl; [exact Hcat|]. by intros ? [? _]. }
    rewrite bind_cons, filter_app, combine_all_app.
    destruct (combine_all _ n) as [rs1|e]; [|done].
    rewrite !bind_Ok, IH.
    destruct (combine_all _ _) as [rs2|e]; [|done].
    rewrite !bind_Ok, <- app_assoc, length_app. do 2 f_equal. lia.
Qed.

(** On a catalogue whose records all carry their two modes the source and
    the enumeration in the words of the design agree, exceptions
    included. *)
Lemma generate_refines_spec catalog :
  Forall has_modes catalog →
  generate_combined_progressions catalog = generateAll_spec catalog.
Proof.
  intros Hcat. unfold generate_combined_progressions, generateAll_spec.
  destruct (mapM _ catalog) as [ids|e]; simpl; [|done].
  destruct (py_max ids) as [m|e]; simpl; [|done].
  rewrite outer_loop_spec by done. fold (ordered_pairs catalog).
  fold (compatible_pairs catalog).
  by destruct (combine_all _ _).
Qed.

End Enumerate.

(** ** Claims about [generate_combined_progressions] *)

Section Generate.

Context {Extra : Type} `{order : SetOrder}.

Implicit Types (p : Progression Extra) (catalog : list (Progression Extra)).

Lemma catalog_ids_Forall2 catalog (ids : list Z) :
  mapM (λ p, getitem "id" (id p)) catalog = Ok ids →
  Forall2 (λ p i, id p = Some i) catalog ids.
Proof.
  intros Hids%mapM_Ok_Forall2. eapply Forall2_impl; [exact Hids|].
  intros p i. apply getitem_Ok_inv.
Qed.

Lemma catalog_ids_Ok catalog :
  Forall well_formed catalog →
  ∃ ids, mapM (λ p, getitem "id" (id p)) catalog = Ok ids.
Proof.
  induction 1 as [|p catalog ([i Hi] & _) _ [ids IH]]; [by exists []|].
  exists (i :: ids). simpl. by rewrite Hi, IH.
Qed.

Lemma well_formed_has_modes catalog :
  Forall well_formed catalog → Forall has_modes catalog.
Proof.
  intros Hwf. eapply Forall_impl; [exact Hwf|].
  intros p (_ & _ & _ & ? & _ & ? & _). by split.
Qed.

(** On a non-empty catalogue of well-formed records the enumeration
    returns, with one record per compatible pair. *)
Lemma generate_returns_on_well_formed catalog :
  catalog ≠ [] → Forall well_formed catalog →
  ∃ out, generate_combined_progressions catalog = Ok out ∧
         length out = length (compatible_pairs catalog).
Proof.
  intros Hne Hwf.
  destruct (catalog_ids_Ok catalog Hwf) as [ids Hids].
  destruct (py_max_nonempty ids) as [base Hbase].
  { intros ->. apply catalog_ids_Forall2 in Hids.
    by apply Forall2_nil_inv_r in Hids. }
  destruct (combine_all_wf (compatible_pairs catalog) (base + 1)
              (compatible_pairs_wf _ Hwf)) as [out Hout].
  exists out. split; [|by apply combine_all_Ok in Hout as [? _]].
  rewrite generate_refines_spec by by apply well_formed_has_modes.
  unfold generateAll_spec. by rewrite Hids, bind_Ok, Hbase, bind_Ok.
Qed.

(** C7. Ids in discovery order: on a non-empty catalogue of well-formed
    records the enumeration returns one record per compatible pair of the
    ordered cross product (outer position first, inner position second,
    self-pairs included), the [k]-th one being the combination of the
    [k]-th pair with id [max(existing ids) + 1 + k]; so the new ids are
    pairwise distinct and greater than every id of the catalogue. *)
Theorem generate_ids_in_discovery_order catalog :
  catalog ≠ [] → Forall well_formed catalog →
  ∃ (base : Z) (out : list (Progression Extra)),
    (∃ p, p ∈ catalog ∧ id p = Some base) ∧
    (∀ p i, p ∈ catalog → id p = Some i → i ≤ base) ∧
    generate_combined_progressions catalog = Ok out ∧
    length out = length (compatible_pairs catalog) ∧
    (∀ (k : nat) p1 p2, compatible_pairs catalog !! k = Some (p1, p2) →
       ∃ r, out !! k = Some r ∧
            combine_progressions p1 p2 (base + 1 + Z.of_nat k) = Ok r ∧
            id r = Some (base + 1 + Z.of_nat k)) ∧
    NoDup (id <$> out) ∧
    (∀ p r i j, p ∈ catalog → r ∈ out →
       id p = Some i → id r = Some j → i < j).
Proof.
  intros Hne Hwf.
  destruct (catalog_ids_Ok catalog Hwf) as [ids Hids].
  pose proof (catalog_ids_Forall2 _ _ Hids) as Hids2.
  destruct (py_max_nonempty ids) as [base Hbase].
  { intros ->. by apply Forall2_nil_inv_r in Hids2. }
  destruct (py_max_Ok _ _ Hbase) as [Hin Hmax].
  destruct (combine_all_wf (compatible_pairs catalog) (base + 1)
              (compatible_pairs_wf _ Hwf)) as [out Hout].
  destruct (combine_all_Ok _ _ _ Hout) as [Hlen Hall].
  assert (∀ (k : nat) r, out !! k = Some r →
            id r = Some (base + 1 + Z.of_nat k)) as Hid.
  { intros k r Hk.
    destruct (compatible_pairs catalog !! k) as [pq|] eqn:Hpq.
    - destruct (Hall k pq Hpq) as (r' & Hr' & Hc).
      assert (r = r') as <- by congruence.
      by apply combine_progressions_id in Hc.
    - apply lookup_ge_None in Hpq. apply lookup_lt_Some in Hk. lia. }
  assert (∀ p i, p ∈ catalog → id p = Some i → i ≤ base) as Hle.
  { intros p i [k Hk]%list_elem_of_lookup Hi.
    destruct (Forall2_lookup_l _ _ _ _ _ Hids2 Hk) as (i' & Hi' & Hp).
    apply Hmax. apply list_elem_of_lookup. exists k. congruence. }
  exists base, out. repeat split; try done.
  - apply list_elem_of_lookup in Hin as [k Hk].
    destruct (Forall2_lookup_r _ _ _ _ _ Hids2 Hk) as (p & Hp & Hi).
    exists p. split; [|done]. apply list_elem_of_lookup. eauto.
  - rewrite generate_refines_spec by by apply well_formed_has_modes.
    unfold generateAll_spec. by rewrite Hids, bind_Ok, Hbase, bind_Ok.
  - intros k p1 p2 Hk. destruct (Hall k _ Hk) as (r & Hr & Hc).
    exists r. eauto.
  - apply NoDup_alt. intros i j x. rewrite !list_lookup_fmap.
    destruct (out !! i) as [ri|] eqn:Hi; [|done].
    destruct (out !! j) as [rj|] eqn:Hj; [|done].
    simpl. intros [= <-] [= Hij].
    rewrite (Hid _ _ Hi), (Hid _ _ Hj) in Hij. injection Hij. lia.
  - intros p r i j Hp [k Hk]%list_elem_of_lookup Hi Hj.
    rewrite (Hid _ _ Hk) in Hj. injection Hj as <-.
    specialize (Hle p i Hp Hi). lia.
Qed.

(** C5. The empty catalogue: [max] over no ids raises [ValueError], so the
    enumeration and the run around it stop before anything is written, and
    the division by the original count has no guard of its own. *)
Theorem empty_catalog_raises :
  generate_combined_progressions (@nil (Progression Extra)) = Raise ValueError ∧
  main (@nil (Progression Extra)) = (None, Raise ValueError) ∧
  ∀ total : nat, truediv total (length (@nil (Progression Extra))) =
                 Raise ZeroDivisionError.
Proof. done. Qed.

End Generate.

(** ** What a run accepts and what it rejects *)

Section Acceptance.

Context {Extra : Type} `{order : SetOrder}.

Implicit Types (p : Progression Extra) (catalog ps : list (Progression Extra)).

Lemma are_compatible_Ok_inv (a b : Progression Extra) (v : bool) :
  are_compatible a b = Ok v → is_Some (to_mode a) ∧ is_Some (from_mode b).
Proof.
  unfold are_compatible.
  destruct (to_mode a), (from_mode b); simpl; done.
Qed.

Lemma inner_loop_Ok_inv p1 ps (st st' : list (Progression Extra) * Z) :
  for_each (try_pair p1) ps st = Ok st' →
  Forall (λ p2, is_Some (to_mode p1) ∧ is_Some (from_mode p2)) ps.
Proof.
  revert st. induction ps as [|p2 ps IH]; intros st; [by constructor|].
  cbn [for_each]. intros Hloop.
  apply bind_Ok_inv in Hloop as (st1 & Hpair & Hloop).
  constructor; [|by eapply IH].
  unfold try_pair in Hpair. apply bind_Ok_inv in Hpair as (v & Hv & _).
  by eapply are_compatible_Ok_inv.
Qed.

Lemma outer_loop_Ok_inv catalog ps (st st' : list (Progression Extra) * Z) :
  for_each (λ st prog1, for_each (try_pair prog1) catalog st) ps st = Ok st' →
  Forall (λ p1, Forall (λ p2, is_Some (to_mode p1) ∧ is_Some (from_mode p2))
                       catalog) ps.
Proof.
  revert st. induction ps as [|p1 ps IH]; intros st; [by constructor|].
  cbn [for_each]. intros Hloop.
  apply bind_Ok_inv in Hloop as (st1 & Hinner & Hloop).
  constructor; [by eapply inner_loop_Ok_inv | by eapply IH].
Qed.

(** A run that returns has read an id and both modes from every record. *)
Lemma generate_Ok_inv catalog (out : list (Progression Extra)) :
  generate_combined_progressions catalog = Ok out →
  catalog ≠ [] ∧ Forall (λ p, is_Some (id p) ∧ has_modes p) catalog.
Proof.
  unfold generate_combined_progressions. intros Hgen.
  apply bind_Ok_inv in Hgen as (ids & Hids & Hgen).
  apply bind_Ok_inv in Hgen as (m & Hm & Hgen).
  apply bind_Ok_inv in Hgen as (st & Hloop & _).
  apply catalog_ids_Forall2 in Hids. apply outer_loop_Ok_inv in Hloop.
  assert (catalog ≠ []) as Hne.
  { intros ->. apply Forall2_nil_inv_l in Hids as ->. discriminate. }
  split; [done|]. rewrite Forall_forall in Hloop. apply Forall_forall.
  intros p Hp. pose proof (Hloop p Hp) as Hrow.
  rewrite Forall_forall in Hrow. destruct (Hrow p Hp) as [Hto Hfrom].
  split; [|by split].
  apply list_elem_of_lookup in Hp as [k Hk].
  destruct (Forall2_lookup_l _ _ _ _ _ Hids Hk) as (i & _ & Hi). by eexists.
Qed.

Lemma missing_id_raises catalog p :
  p ∈ catalog → id p = None →
  mapM (λ p, getitem "id" (id p)) catalog = Raise (KeyError "id").
Proof.
  intros Hp Hid. induction Hp as [p catalog|p q catalog _ IH]; simpl.
  - by rewrite Hid.
  - destruct (id q); simpl; [|done]. by rewrite IH.
Qed.

(** C6, as amended. There is no validation between load and enumeration.
    A non-empty batch whose records carry every key the engine reads is
    accepted whatever the length of its chord sequences, the empty one
    included, one record being produced per compatible pair and the
    expanded catalogue written.  A record without [id] ends the run with
    [KeyError('id')]; a record without [from_mode] or [to_mode] ends it
    with an exception. *)
Theorem no_validation_after_load catalog :
  (catalog ≠ [] → Forall well_formed catalog →
     ∃ out, generate_combined_progressions catalog = Ok out ∧
            length out = length (compatible_pairs catalog) ∧
            (main catalog).1 = Some (catalog ++ out)) ∧
  ((∃ p, p ∈ catalog ∧ id p = None) →
     generate_combined_progressions catalog = Raise (KeyError "id") ∧
     main catalog = (None, Raise (KeyError "id"))) ∧
  ((∃ p, p ∈ catalog ∧ ¬ has_modes p) →
     ∃ e, generate_combined_progressions catalog = Raise e ∧
          main catalog = (None, Raise e)).
Proof.
  split; [|split].
  - intros Hne Hwf.
    destruct (generate_returns_on_well_formed catalog Hne Hwf)
      as (out & Hgen & Hlen).
    exists out. unfold main. by rewrite Hgen.
  - intros (p & Hp & Hid).
    assert (generate_combined_progressions catalog = Raise (KeyError "id"))
      as Hgen.
    { unfold generate_combined_progressions.
      by rewrite (missing_id_raises _ _ Hp Hid). }
    unfold main. by rewrite Hgen.
  - intros (p & Hp & Hmodes).
    destruct (generate_combined_progressions catalog) as [out|e] eqn:Hgen.
    + apply generate_Ok_inv in Hgen as [_ Hall].
      rewrite Forall_forall in Hall. destruct (Hall p Hp) as [_ ?]. done.
    + exists e. unfold main. by rewrite Hgen.
Qed.

End Acceptance.

(** ** Two runs on one catalogue *)

Section TwoRuns.

Context {Extra : Type} (O1 O2 : SetOrder).

Implicit Types (p : Progression Extra) (catalog : list (Progression Extra)).

Lemma set_to_list_Permutation (xs : list string) :
  @set_to_list O1 xs ≡ₚ @set_to_list O2 xs.
Proof.
  apply NoDup_Permutation; [apply set_to_list_NoDup..|].
  intros x. by rewrite !set_to_list_elem.
Qed.

Lemma combine_progressions_agree (a b : Progression Extra) (n : Z) :
  result_Forall2 same_but_style_order
    (combine_progressions (order := O1) a b n)
    (combine_progressions (order := O2) a b n).
Proof.
  rewrite !combine_progressions_eq.
  destruct (modulation_technique a); simpl; [|constructor].
  destruct (modulation_technique b); simpl; [|constructor].
  destruct (style a); simpl; [|constructor].
  destruct (style b); simpl; [|constructor].
  destruct (from_mode a); simpl; [|constructor].
  destruct (to_root a); simpl; [|constructor].
  destruct (to_root b); simpl; [|constructor].
  destruct (to_mode b); simpl; [|constructor].
  destruct (chords a); simpl; [|constructor].
  destruct (chords b); simpl; [|constructor].
  destruct (mapM _ _); simpl; constructor.
  repeat split. simpl. constructor. apply set_to_list_Permutation.
Qed.

Lemma try_pair_agree (p1 p2 : Progression Extra) st1 st2 :
  states_agree st1 st2 →
  result_Forall2 states_agree
    (try_pair (order := O1) p1 st1 p2) (try_pair (order := O2) p1 st2 p2).
Proof.
  destruct st1 as [acc1 n1], st2 as [acc2 n2]. intros [Hrecs Hn].
  simpl in Hrecs, Hn. subst n2. unfold try_pair.
  destruct (are_compatible p1 p2) as [[|]|e]; simpl.
  - destruct (combine_progressions_agree p1 p2 n1) as [r1 r2 Hr|e];
      simpl; constructor.
    split; simpl; [|done].
    apply Forall2_app; [done | by constructor].
  - by constructor.
  - constructor.
Qed.

(** C9, as amended. Two runs on one catalogue raise the same exception, or
    return sequences of the same length whose records agree, position by
    position, in id, technique, modes, root and chords, and carry the same
    style tags, in an order that may differ from one run to the other. *)
Theorem two_runs_agree_up_to_style_order catalog :
  result_Forall2 (Forall2 same_but_style_order)
    (generate_combined_progressions (order := O1) catalog)
    (generate_combined_progressions (order := O2) catalog).
Proof.
  unfold generate_combined_progressions.
  destruct (mapM _ catalog) as [ids|e]; simpl; [|constructor].
  destruct (py_max ids) as [m|e]; simpl; [|constructor].
  pose proof (for_each_related states_agree
    (λ st prog1, for_each (try_pair (order := O1) prog1) catalog st)
    (λ st prog1, for_each (try_pair (order := O2) prog1) catalog st)
    catalog) as Houter.
  destruct (Houter) with (s := (@nil (Progression Extra), m + 1))
                         (t := (@nil (Progression Extra), m + 1))
    as [st1 st2 [Hrecs _]|e]; simpl.
  - intros s t p1 Hst. apply for_each_related; [|done].
    intros s' t' p2 Hst'. by apply try_pair_agree.
  - split; [constructor | done].
  - by constructor.
  - constructor.
Qed.

End TwoRuns.

(** ** The claims at the sample records *)

Lemma combine_root_additivity_witness :
  ∃ r, combine_progressions (order := forward_order) prog_A prog_B 3 = Ok r ∧
       to_root r = Some ((2 + 5) mod 12).
Proof.
  apply (combine_root_additivity prog_A prog_B 3 2 5); compute_done.
Defined.

Lemma combine_chord_count_witness :
  ∃ r rc, combine_progressions (order := forward_order) prog_A prog_B 3 = Ok r ∧
          chords r = Some rc ∧ length rc = (2 + 3 - 1)%nat.
Proof.
  apply (combine_chord_count prog_A prog_B 3
           [chord_at 0; chord_at 2] [chord_at 0; chord_at 3; chord_at 5]);
    [compute_done | compute_done | reflexivity | reflexivity | discriminate].
Defined.

Lemma combine_join_point_rebasing_witness :
  ∃ r rc, combine_progressions (order := forward_order) prog_A prog_B 3 = Ok r ∧
    chords r = Some rc ∧
    (∀ i c k, [chord_at 0; chord_at 3; chord_at 5] !! i = Some c →
       key_root c = Some k →
       ∃ c', rc !! (length rc - 3 + i)%nat = Some c' ∧
             key_root c' = Some ((k + 2) mod 12)) ∧
    (∀ i, (i < 2 - 1)%nat → rc !! i = [chord_at 0; chord_at 2] !! i).
Proof.
  apply (combine_join_point_rebasing prog_A prog_B 3 2
           [chord_at 0; chord_at 2] [chord_at 0; chord_at 3; chord_at 5]);
    [compute_done | compute_done | reflexivity | reflexivity | reflexivity].
Defined.

Lemma combine_endpoint_chaining_witness :
  ∃ r, combine_progressions (order := forward_order) prog_A prog_B 3 = Ok r ∧
       from_mode r = Some "ionian" ∧ to_mode r = Some "mixolydian".
Proof.
  apply (combine_endpoint_chaining prog_A prog_B 3); compute_done.
Defined.

Lemma combine_empty_left_chords_witness :
  ∃ r rc,
    combine_progressions (order := forward_order) prog_hollow_up prog_noted 8
      = Ok r ∧
    chords r = Some rc ∧
    mapM (rebased_chord 3) [chord_at 0; chord_noted] = Ok rc ∧
    length rc = 2%nat ∧
    ∀ (i : nat) (c : Chord unit), [chord_at 0; chord_noted] !! i = Some c →
      ∃ k, key_root c = Some k ∧
           rc !! i =
             Some {| key_root := Some ((k + 3) mod 12);
                     comment := String.app "[from prog2] " <$> comment c;
                     payload := payload c |}.
Proof.
  apply (combine_empty_left_chords prog_hollow_up prog_noted 8 3
           [chord_at 0; chord_noted]);
    [compute_done | compute_done | reflexivity | reflexivity | reflexivity].
Defined.

Lemma generate_ids_in_discovery_order_witness :
  ∃ (base : Z) (out : list (Progression unit)),
    (∃ p, p ∈ [prog_A; prog_B; prog_loop] ∧ id p = Some base) ∧
    (∀ p i, p ∈ [prog_A; prog_B; prog_loop] → id p = Some i → i ≤ base) ∧
    generate_combined_progressions (order := forward_order)
      [prog_A; prog_B; prog_loop] = Ok out ∧
    length out = length (compatible_pairs [prog_A; prog_B; prog_loop]) ∧
    (∀ (k : nat) p1 p2,
       compatible_pairs [prog_A; prog_B; prog_loop] !! k = Some (p1, p2) →
       ∃ r, out !! k = Some r ∧
            combine_progressions (order := forward_order) p1 p2
              (base + 1 + Z.of_nat k) = Ok r ∧
            id r = Some (base + 1 + Z.of_nat k)) ∧
    NoDup (id <$> out) ∧
    (∀ p r i j, p ∈ [prog_A; prog_B; prog_loop] → r ∈ out →
       id p = Some i → id r = Some j → i < j).
Proof.
  apply (generate_ids_in_discovery_order [prog_A; prog_B; prog_loop]);
    [discriminate | compute_done].
Defined.

(** C6, as stated, fails on a batch with a record whose chord sequence is
    empty and a record without [chords]: nothing is rejected, both
    compatible pairs of the batch are combined, the empty sequence being
    sliced on the way, and the expanded catalogue is written. *)
Lemma malformed_batch_is_accepted :
  chords prog_hollow = Some [] ∧ chords prog_stray = None ∧
  (¬ ∃ e, generate_combined_progressions (order := forward_order)
            [prog_A; prog_hollow; prog_stray] = Raise e) ∧
  ∃ r1 r2,
    generate_combined_progressions (order := forward_order)
      [prog_A; prog_hollow; prog_stray] = Ok [r1; r2] ∧
    chords r1 = Some [chord_at 0] ∧
    chords r2 = Some [chord_at 0; chord_at 2] ∧
    (main (order := forward_order) [prog_A; prog_hollow; prog_stray]).1 =
      Some [prog_A; prog_hollow; prog_stray; r1; r2].
Proof.
  split; [done|]. split; [done|]. split.
  - intros [e He]. vm_compute in He. discriminate.
  - eexists _, _. split; [vm_compute; reflexivity|]. by vm_compute.
Qed.

Lemma no_validation_after_load_witness :
  (∃ out, generate_combined_progressions (order := forward_order)
            [prog_A; prog_hollow] = Ok out ∧
          length out = length (compatible_pairs [prog_A; prog_hollow]) ∧
          (main (order := forward_order) [prog_A; prog_hollow]).1 =
            Some ([prog_A; prog_hollow] ++ out)) ∧
  (generate_combined_progressions (order := forward_order) [prog_A; prog_anon] =
     Raise (KeyError "id") ∧
   main (order := forward_order) [prog_A; prog_anon] =
     (None, Raise (KeyError "id"))) ∧
  (∃ e, generate_combined_progressions (order := forward_order)
          [prog_A; prog_rootless] = Raise e ∧
        main (order := forward_order) [prog_A; prog_rootless] = (None, Raise e)).
Proof.
  split; [|split].
  - apply (proj1 (no_validation_after_load [prog_A; prog_hollow]));
      [discriminate | compute_done].
  - apply (proj1 (proj2 (no_validation_after_load [prog_A; prog_anon]))).
    exists prog_anon. split; [do 2 constructor | reflexivity].
  - apply (proj2 (proj2 (no_validation_after_load [prog_A; prog_rootless]))).
    exists prog_rootless. split; [do 2 constructor|].
    intros [[fm Hfm] _]. discriminate Hfm.
Defined.

(** C9, as stated, fails on the worked example: with two iteration orders
    of the same set the style tags of the combined record come out in two
    different orders, so the two output sequences are not identical. *)
Lemma style_order_differs_between_runs :
  generate_combined_progressions (order := forward_order) [prog_A; prog_B] ≠
  generate_combined_progressions (order := backward_order) [prog_A; prog_B].
Proof. vm_compute. discriminate. Qed.

Lemma two_runs_agree_up_to_style_order_witness :
  result_Forall2 (Forall2 same_but_style_order)
    (generate_combined_progressions (order := forward_order) [prog_A; prog_B])
    (generate_combined_progressions (order := backward_order) [prog_A; prog_B]).
Proof.
  apply (two_runs_agree_up_to_style_order forward_order backward_order
           [prog_A; prog_B]).
Defined.

(** * Further properties of the engine *)

(** ** What [combine_progressions] needs and what it returns *)

Section CombineMore.

Context {Extra : Type} `{order : SetOrder}.

Implicit Types (a b : Progression Extra) (ca cb rc : list (Chord Extra)).


Lemma combinable_combine a b (n : Z) :
  combinable a b →
  ∃ t1 t2 s1 s2 fm r1 r2 tm c1 c2 ys,
    modulation_technique a = Some t1 ∧ modulation_technique b = Some t2 ∧
    style a = Some s1 ∧ style b = Some s2 ∧
    from_mode a = Some fm ∧ to_root a = Some r1 ∧ to_root b = Some r2 ∧
    to_mode b = Some tm ∧ chords a = Some c1 ∧ chords b = Some c2 ∧
    Forall2 (λ c c', rebased_chord r1 c = Ok c') c2 ys ∧
    combine_progressions a b n =
      Ok {| id := Some n;
            modulation_technique := Some ("combo " +:+ t1 +:+ " " +:+ t2);
            style := Some (set_to_list (s1 ++ s2));
            from_mode := Some fm;
            to_root := Some ((r1 + r2) mod 12);
            to_mode := Some tm;
            chords := Some (all_but_last c1 ++ ys) |}.
Proof.
  intros ([t1 Ht1] & [t2 Ht2] & [s1 Hs1] & [s2 Hs2] & [fm Hfm] & [r1 Hr1] &
          [r2 Hr2] & [tm Htm] & [c1 Hc1] & Hcb).
  destruct (chords b) as [c2|] eqn:Hc2; [simpl in Hcb | done].
  destruct (rebased_chords_Ok r1 c2 Hcb) as [ys Hys].
  exists t1, t2, s1, s2, fm, r1, r2, tm, c1, c2, ys.
  repeat (split; [done|]). split; [by apply mapM_Ok_Forall2|].
  rewrite combine_progressions_eq, Ht1, Ht2, Hs1, Hs2, Hfm, Hr1, Hr2, Htm.
  rewrite Hc1, Hc2. simpl. by rewrite Hys.
Qed.



Lemma well_formed_combinable a b :
  well_formed a → well_formed b → combinable a b.
Proof.
  intros (_ & ? & ? & ? & ? & _ & Hca) (_ & ? & ? & _ & ? & ? & Hcb).
  repeat (split; [done|]). split; [|done].
  destruct (chords a); [by eexists | done].
Qed.

Lemma rebased_chord_Ok_inv (offset : Z) (c c' : Chord Extra) :
  rebased_chord offset c = Ok c' →
  ∃ k, key_root c = Some k ∧
       c' = {| key_root := Some ((k + offset) mod 12);
               comment := String.app "[from prog2] " <$> comment c;
               payload := payload c |}.
Proof.
  intros Hc. destruct (rebased_chord_key_root _ _ _ Hc) as (k & Hk & _).
  exists k. split; [done|]. rewrite (rebased_chord_Ok _ _ _ Hk) in Hc.
  by injection Hc.
Qed.

(** The new record carries the id it was given and a label made of the two
    technique names after the word combo. *)
Theorem combine_id_and_label a b (n : Z) (ta tb : string) :
  combinable a b →
  modulation_technique a = Some ta → modulation_technique b = Some tb →
  ∃ r, combine_progressions a b n = Ok r ∧ id r = Some n ∧
       modulation_technique r = Some ("combo " +:+ ta +:+ " " +:+ tb).
Proof.
  intros Hab Hta Htb. destruct (combinable_combine a b n Hab)
    as (t1 & t2 & s1 & s2 & fm & r1 & r2 & tm & c1 & c2 & ys & Hr);
    destruct_and!.
  eexists. split; [eassumption|]. simpl. split; [done|]. congruence.
Qed.

(** The style of the new record has no tag twice, and its tags are those
    of the one record or of the other. *)
Theorem combine_style_union a b (n : Z) (sa sb : list string) :
  combinable a b → style a = Some sa → style b = Some sb →
  ∃ r sr, combine_progressions a b n = Ok r ∧ style r = Some sr ∧
          NoDup sr ∧ ∀ x, x ∈ sr ↔ x ∈ sa ∨ x ∈ sb.
Proof.
  intros Hab Hsa Hsb. destruct (combinable_combine a b n Hab)
    as (t1 & t2 & s1 & s2 & fm & r1 & r2 & tm & c1 & c2 & ys & Hr);
    destruct_and!.
  assert (s1 = sa) as -> by congruence. assert (s2 = sb) as -> by congruence.
  eexists _, _. split; [eassumption|]. simpl. split; [done|].
  split; [apply set_to_list_NoDup|].
  intros x. by rewrite set_to_list_elem, elem_of_app.
Qed.

(** A chord taken from the second record keeps its opaque fields; its
    comment, when it has one, gets the marker in front, and it stays
    without a comment when it has none. *)
Theorem combine_comment_marker a b (n : Z) ca cb :
  combinable a b → chords a = Some ca → chords b = Some cb →
  ∃ r rc, combine_progressions a b n = Ok r ∧ chords r = Some rc ∧
    ∀ (i : nat) (c : Chord Extra), cb !! i = Some c →
      ∃ c', rc !! (length ca - 1 + i)%nat = Some c' ∧
            comment c' = String.app "[from prog2] " <$> comment c ∧
            payload c' = payload c.
Proof.
  intros Hab Hca Hcb. destruct (combinable_combine a b n Hab)
    as (t1 & t2 & s1 & s2 & fm & r1 & r2 & tm & c1 & c2 & ys & Hr);
    destruct_and!.
  assert (c1 = ca) as -> by congruence. assert (c2 = cb) as -> by congruence.
  eexists _, _. split; [eassumption|]. split; [reflexivity|].
  intros i c Hi.
  destruct (Forall2_lookup_l _ _ _ _ _ ltac:(eassumption) Hi)
    as (c' & Hi' & Hc').
  exists c'. split.
  - rewrite lookup_app_r by (rewrite all_but_last_length; lia).
    rewrite all_but_last_length.
    by replace (length ca - 1 + i - (length ca - 1))%nat with i by lia.
  - apply rebased_chord_Ok_inv in Hc' as (k & _ & ->). done.
Qed.

(** Pitch classes: the root of the new record and the [key_root] of every
    chord taken from the second record lie in [0, 12), whatever the
    integers read; the chords taken from the first record are not reduced,
    so all chords of the result are in range when those of the first record
    are. *)
Theorem combine_pitch_range a b (n : Z) ca :
  combinable a b → chords a = Some ca →
  ∃ r rc tr, combine_progressions a b n = Ok r ∧
    chords r = Some rc ∧ to_root r = Some tr ∧ 0 ≤ tr < 12 ∧
    Forall in_pitch_range (drop (length ca - 1) rc) ∧
    (Forall in_pitch_range ca → Forall in_pitch_range rc).
Proof.
  intros Hab Hca. destruct (combinable_combine a b n Hab)
    as (t1 & t2 & s1 & s2 & fm & r1 & r2 & tm & c1 & c2 & ys & Hr);
    destruct_and!.
  assert (c1 = ca) as -> by congruence.
  assert (Forall in_pitch_range ys) as Hys.
  { eapply Forall2_Forall_r; [eassumption|]. apply Forall_true.
    intros c c' (k & _ & ->)%rebased_chord_Ok_inv.
    eexists. split; [reflexivity|]. by apply Z.mod_pos_bound. }
  eexists _, _, _. split; [eassumption|]. simpl.
  split; [done|]. split; [done|]. split; [by apply Z.mod_pos_bound|]. split.
  - rewrite drop_app_length'; [done|]. symmetry. apply all_but_last_length.
  - intros Hin. apply Forall_app. split; [|done]. by apply Forall_take.
Qed.

Lemma rebased_key_roots (offset : Z) cb rc :
  Forall2 (λ c c', rebased_chord offset c = Ok c') cb rc →
  key_root <$> rc = shifted offset <$> (key_root <$> cb).
Proof.
  induction 1 as [|c c' cb rc Hc _ IH]; [done|].
  rewrite !fmap_cons, IH. f_equal.
  apply rebased_chord_Ok_inv in Hc as (k & Hk & ->). by rewrite Hk.
Qed.

(** What the combination of two well-formed records is, in short. *)
Lemma combine_summary a b (n ra rb : Z) ca cb :
  well_formed a → well_formed b →
  to_root a = Some ra → to_root b = Some rb →
  chords a = Some ca → chords b = Some cb →
  ∃ r ys, combine_progressions a b n = Ok r ∧ well_formed r ∧
    from_mode r = from_mode a ∧ to_mode r = to_mode b ∧
    to_root r = Some ((ra + rb) mod 12) ∧
    chords r = Some (all_but_last ca ++ ys) ∧
    key_root <$> ys = shifted ra <$> (key_root <$> cb) ∧
    length ys = length cb.
Proof.
  intros Ha Hb Hra Hrb Hca Hcb.
  destruct (combinable_combine a b n (well_formed_combinable a b Ha Hb))
    as (t1 & t2 & s1 & s2 & fm & r1 & r2 & tm & c1 & c2 & ys &
        _ & _ & _ & _ & Hfm & Hr1 & Hr2 & Htm & Hc1 & Hc2 & Hys & Hr).
  assert (r1 = ra) as -> by congruence. assert (r2 = rb) as -> by congruence.
  assert (c1 = ca) as -> by congruence. assert (c2 = cb) as -> by congruence.
  eexists _, ys. split; [exact Hr|]. split; [|simpl; split_and!; try done].
  - repeat (split; [by eexists|]). simpl. apply Forall_app. split.
    + destruct Ha as (_ & _ & _ & _ & _ & _ & Ha). rewrite Hca in Ha.
      by apply Forall_take.
    + eapply Forall2_Forall_r; [exact Hys|]. apply Forall_true.
      intros c c' (k & _ & ->)%rebased_chord_Ok_inv. by eexists.
  - by apply rebased_key_roots.
  - symmetry. by eapply Forall2_length.
Qed.

Lemma well_formed_root_chords a :
  well_formed a → ∃ (ra : Z) ca, to_root a = Some ra ∧ chords a = Some ca.
Proof.
  intros (_ & _ & _ & _ & [ra Hra] & _ & Hca).
  destruct (chords a) as [ca|]; [eauto | done].
Qed.

(** The new record has every key the engine reads, so it can be combined
    again and enumerated in a later run. *)
Theorem combine_well_formed a b (n : Z) :
  well_formed a → well_formed b →
  ∃ r, combine_progressions a b n = Ok r ∧ well_formed r.
Proof.
  intros Ha Hb.
  destruct (well_formed_root_chords a Ha) as (ra & ca & Hra & Hca).
  destruct (well_formed_root_chords b Hb) as (rb & cb & Hrb & Hcb).
  destruct (combine_summary a b n ra rb ca cb) as (r & ys & Hr & Hwf & _);
    eauto.
Qed.

(** Chaining is kept: the new record can follow whatever [a] can follow,
    and can be followed by whatever can follow [b]. *)
Theorem combine_keeps_compatibility a b (n : Z) :
  combinable a b →
  ∃ r, combine_progressions a b n = Ok r ∧
       ∀ x : Progression Extra,
         are_compatible x r = are_compatible x a ∧
         are_compatible r x = are_compatible b x.
Proof.
  intros Hab. destruct (combinable_combine a b n Hab)
    as (t1 & t2 & s1 & s2 & fm & r1 & r2 & tm & c1 & c2 & ys &
        _ & _ & _ & _ & Hfm & _ & _ & Htm & _ & _ & _ & Hr).
  eexists. split; [exact Hr|]. intros x. unfold are_compatible.
  by rewrite Hfm, Htm.
Qed.

Lemma all_but_last_fmap {A B : Type} (f : A → B) (xs : list A) :
  f <$> all_but_last xs = all_but_last (f <$> xs).
Proof. unfold all_but_last. by rewrite fmap_take, length_fmap. Qed.

Lemma all_but_last_app {A : Type} (xs ys : list A) :
  ys ≠ [] → all_but_last (xs ++ ys) = xs ++ all_but_last ys.
Proof.
  intros Hys. unfold all_but_last. rewrite length_app.
  replace (length xs + length ys - 1)%nat
    with (length xs + (length ys - 1))%nat by (destruct ys; [done | simpl; lia]).
  apply take_app_add.
Qed.

Lemma shifted_shifted (ra rb : Z) (k : option Z) :
  shifted ra (shifted rb k) = shifted ((ra + rb) mod 12) k.
Proof.
  destruct k as [k|]; [|done]. unfold shifted. simpl. f_equal.
  rewrite Zplus_mod_idemp_l, Zplus_mod_idemp_r. f_equal. lia.
Qed.

(** Three in a row: when the middle record has a chord, combining the first
    two and then the third, or the first with the combination of the last
    two, gives the same modes, the same root and the same sequence of
    [key_root]s. *)
Theorem combine_associative_on_roots a b c (n m1 m2 : Z) cb :
  well_formed a → well_formed b → well_formed c →
  chords b = Some cb → cb ≠ [] →
  ∃ ab bc l r cl cr,
    combine_progressions a b m1 = Ok ab ∧
    combine_progressions b c m2 = Ok bc ∧
    combine_progressions ab c n = Ok l ∧
    combine_progressions a bc n = Ok r ∧
    from_mode l = from_mode r ∧ to_mode l = to_mode r ∧
    to_root l = to_root r ∧
    chords l = Some cl ∧ chords r = Some cr ∧
    key_root <$> cl = key_root <$> cr.
Proof.
  intros Ha Hb Hc Hcb Hne.
  destruct (well_formed_root_chords a Ha) as (ra & ca & Hra & Hca).
  destruct (well_formed_root_chords b Hb) as (rb & cb' & Hrb & Hcb').
  assert (cb' = cb) as -> by congruence. clear Hcb'.
  destruct (well_formed_root_chords c Hc) as (rc & cc & Hrc & Hcc).
  destruct (combine_summary a b m1 ra rb ca cb)
    as (ab & ysb & Hab & Hwab & Hfab & Htab & Hrab & Hcab & Hkb & Hlb);
    [done..|].
  destruct (combine_summary b c m2 rb rc cb cc)
    as (bc & ysc & Hbc & Hwbc & Hfbc & Htbc & Hrbc & Hcbc & Hkc & Hlc);
    [done..|].
  destruct (combine_summary ab c n _ rc _ cc Hwab Hc Hrab Hrc Hcab Hcc)
    as (l & ysl & Hl & _ & Hfl & Htl & Hrl & Hcl & Hkl & _).
  destruct (combine_summary a bc n ra _ ca _ Ha Hwbc Hra Hrbc Hca Hcbc)
    as (r & ysr & Hr & _ & Hfr & Htr & Hrr & Hcr & Hkr & _).
  exists ab, bc, l, r. eexists _, _.
  repeat (split; [done|]). split; [congruence|]. split; [congruence|].
  split.
  { rewrite Hrl, Hrr. f_equal.
    rewrite Zplus_mod_idemp_l, Zplus_mod_idemp_r. f_equal. lia. }
  split; [exact Hcl|]. split; [exact Hcr|].
  assert (ysb ≠ []) as Hysb.
  { intros ->. destruct cb; [done | discriminate]. }
  rewrite all_but_last_app by done.
  rewrite !fmap_app, <- !app_assoc. f_equal.
  rewrite Hkl, Hkr, !fmap_app, (all_but_last_fmap key_root ysb), Hkb, Hkc.
  rewrite <- (all_but_last_fmap (shifted ra)).
  rewrite <- (all_but_last_fmap key_root cb). f_equal.
  rewrite <- (list_fmap_compose (shifted rb) (shifted ra)).
  apply list_fmap_ext. intros i k _. simpl. symmetry. apply shifted_shifted.
Qed.

End CombineMore.

(** ** The exceptions of a run *)

Section Exceptions.

Context {Extra : Type} `{order : SetOrder}.

Implicit Types (catalog ps : list (Progression Extra)).

Lemma raises_only_bind {A B : Type} (P : PyError → Prop)
    (m : result A) (f : A → result B) :
  raises_only P m → (∀ v, raises_only P (f v)) → raises_only P (m ≫= f).
Proof.
  intros Hm Hf e. destruct m as [v|e']; simpl.
  - apply Hf.
  - intros [= ->]. by apply Hm.
Qed.

Lemma raises_only_Ok {A : Type} (P : PyError → Prop) (v : A) :
  raises_only P (Ok v).
Proof. intros e. discriminate. Qed.

Lemma raises_only_for_each {A S : Type} (P : PyError → Prop)
    (body : S → A → result S) (xs : list A) (s : S) :
  (∀ s x, raises_only P (body s x)) → raises_only P (for_each body xs s).
Proof.
  intros Hbody. revert s. induction xs as [|x xs IH]; intros s; simpl.
  - apply raises_only_Ok.
  - by apply raises_only_bind.
Qed.

Lemma raises_only_mapM {A B : Type} (P : PyError → Prop)
    (f : A → result B) (xs : list A) :
  (∀ x, raises_only P (f x)) → raises_only P (mapM f xs).
Proof.
  intros Hf. induction xs as [|x xs IH]; simpl; [apply raises_only_Ok|].
  apply raises_only_bind; [done|]. intros y.
  apply raises_only_bind; [done|]. intros ys. apply raises_only_Ok.
Qed.

Lemma getitem_missing_key {A : Type} (key : string) (field : option A) :
  key ∈ engine_keys → raises_only missing_engine_key (getitem key field).
Proof.
  intros Hkey e. destruct field; simpl; [discriminate|].
  intros [= <-]. by exists key.
Qed.

Lemma rebased_chord_missing_key (offset : Z) (c : Chord Extra) :
  raises_only missing_engine_key (rebased_chord offset c).
Proof.
  unfold rebased_chord, deepcopy. apply raises_only_bind.
  - apply getitem_missing_key. compute_done.
  - intros k. apply raises_only_Ok.
Qed.

Lemma combine_progressions_missing_key (a b : Progression Extra) (n : Z) :
  raises_only missing_engine_key (combine_progressions a b n).
Proof.
  rewrite combine_progressions_eq.
  do 10 (apply raises_only_bind;
         [apply getitem_missing_key; compute_done | intros ?]).
  apply raises_only_bind; [|intros ?; apply raises_only_Ok].
  apply raises_only_mapM. intros c. apply rebased_chord_missing_key.
Qed.

Lemma try_pair_missing_key (p1 p2 : Progression Extra) st :
  raises_only missing_engine_key (try_pair p1 st p2).
Proof.
  unfold try_pair. apply raises_only_bind.
  - unfold are_compatible.
    do 2 (apply raises_only_bind;
          [apply getitem_missing_key; compute_done | intros ?]).
    apply raises_only_Ok.
  - intros [|]; [|apply raises_only_Ok].
    apply raises_only_bind; [apply combine_progressions_missing_key|].
    intros r. apply raises_only_Ok.
Qed.

Lemma mapM_nil_inv {A B : Type} (f : A → result B) (xs : list A) :
  mapM f xs = Ok [] → xs = [].
Proof. intros Hm%mapM_Ok_length. by destruct xs. Qed.

(** The run raises [ValueError] on the empty catalogue and on no other,
    and every other exception it raises is the [KeyError] of a key the
    engine reads. *)
Lemma generate_raises catalog (e : PyError) :
  generate_combined_progressions catalog = Raise e →
  (catalog = [] ∧ e = ValueError) ∨ (catalog ≠ [] ∧ missing_engine_key e).
Proof.
  unfold generate_combined_progressions.
  destruct (mapM _ catalog) as [ids|e'] eqn:Hids; simpl.
  - destruct ids as [|i ids]; simpl.
    + intros [= <-]. left. split; [by eapply mapM_nil_inv | done].
    + intros He. right. split; [by intros ->|].
      eapply (raises_only_bind missing_engine_key); [| |exact He];
        [|intros ?; apply raises_only_Ok].
      apply raises_only_for_each. intros st p1.
      apply raises_only_for_each. intros st' p2.
      apply try_pair_missing_key.
  - intros [= <-]. right. split; [by intros ->|].
    eapply (raises_only_mapM missing_engine_key); [|exact Hids].
    intros p. apply getitem_missing_key. compute_done.
Qed.

End Exceptions.

(** ** What a run needs, and what it writes *)

Section RunMore.

Context {Extra : Type} `{order : SetOrder}.

Implicit Types (p : Progression Extra) (catalog : list (Progression Extra)).
Implicit Types (pairs : list (Progression Extra * Progression Extra)).

(** The division of [main] never fails: with no record the run has stopped
    at [max] before, and with a record the divisor is not zero. *)
Theorem main_never_divides_by_zero catalog :
  (main catalog).2 ≠ Raise ZeroDivisionError.
Proof.
  unfold main.
  destruct (generate_combined_progressions catalog) as [out|e] eqn:Hgen; simpl.
  - apply generate_Ok_inv in Hgen as [Hne _]. unfold truediv.
    destruct (decide (length catalog = 0%nat)) as [Hlen|_]; [|done].
    by destruct catalog.
  - intros [= ->].
    destruct (generate_raises _ _ Hgen) as [[_ [=]]|[_ (k & _ & [=])]].
Qed.



(** A run that returns is the enumeration in the words of the design. *)
Lemma generate_Ok_spec catalog (out : list (Progression Extra)) :
  generate_combined_progressions catalog = Ok out →
  ∃ (ids : list Z) (base : Z),
    Forall2 (λ p i, id p = Some i) catalog ids ∧ py_max ids = Ok base ∧
    combine_all (compatible_pairs catalog) (base + 1) = Ok out.
Proof.
  intros Hgen. pose proof (generate_Ok_inv _ _ Hgen) as [_ Hall].
  rewrite generate_refines_spec in Hgen.
  2:{ eapply Forall_impl; [exact Hall|]. by intros p [_ ?]. }
  unfold generateAll_spec in Hgen.
  apply bind_Ok_inv in Hgen as (ids & Hids & Hgen).
  apply bind_Ok_inv in Hgen as (base & Hbase & Hgen).
  exists ids, base. split; [by apply catalog_ids_Forall2 | done].
Qed.

(** The ids of a run that returns: none of the catalogue is above [base],
    and the [k]-th new record has id [base + 1 + k]. *)
Lemma generate_Ok_ids catalog (out : list (Progression Extra)) :
  generate_combined_progressions catalog = Ok out →
  ∃ base : Z,
    (∀ p i, p ∈ catalog → id p = Some i → i ≤ base) ∧
    ∀ (k : nat) r, out !! k = Some r → id r = Some (base + 1 + Z.of_nat k).
Proof.
  intros (ids & base & Hids & Hbase & Hout)%generate_Ok_spec.
  destruct (py_max_Ok _ _ Hbase) as [_ Hmax].
  destruct (combine_all_Ok _ _ _ Hout) as [Hlen Hall].
  exists base. split.
  - intros p i [k Hk]%list_elem_of_lookup Hi.
    destruct (Forall2_lookup_l _ _ _ _ _ Hids Hk) as (i' & Hi' & Hp).
    apply Hmax. apply list_elem_of_lookup. exists k. congruence.
  - intros k r Hk.
    destruct (compatible_pairs catalog !! k) as [pq|] eqn:Hpq.
    + destruct (Hall k pq Hpq) as (r' & Hr' & Hc).
      assert (r = r') as <- by congruence.
      by apply combine_progressions_id in Hc.
    + apply lookup_ge_None in Hpq. apply lookup_lt_Some in Hk. lia.
Qed.


(** Every record the enumeration returns is the combination of two records
    of the catalogue that chain, and every two records that chain, a
    record with itself included, have their combination in what it
    returns. *)
Theorem generate_sound_and_complete catalog :
  catalog ≠ [] → Forall well_formed catalog →
  ∃ out, generate_combined_progressions catalog = Ok out ∧
    (∀ r, r ∈ out →
       ∃ p1 p2 (n : Z), p1 ∈ catalog ∧ p2 ∈ catalog ∧ chains p1 p2 ∧
                        combine_progressions p1 p2 n = Ok r) ∧
    (∀ p1 p2, p1 ∈ catalog → p2 ∈ catalog → chains p1 p2 →
       ∃ r (n : Z), r ∈ out ∧ combine_progressions p1 p2 n = Ok r).
Proof.
  intros Hne Hwf.
  destruct (generate_returns_on_well_formed catalog Hne Hwf)
    as (out & Hgen & _).
  exists out. split; [done|].
  apply generate_Ok_spec in Hgen as (ids & base & _ & _ & Hout).
  destruct (combine_all_Ok _ _ _ Hout) as [Hlen Hpairs]. split.
  - intros r [k Hk]%list_elem_of_lookup.
    destruct (compatible_pairs catalog !! k) as [[p1 p2]|] eqn:Hpq.
    + destruct (Hpairs k _ Hpq) as (r' & Hr' & Hc).
      assert (r = r') as <- by congruence.
      assert ((p1, p2) ∈ compatible_pairs catalog) as Hin
        by (apply list_elem_of_lookup; eauto).
      apply compatible_pairs_elem in Hin as (? & ? & ?).
      exists p1, p2. eauto 10.
    + apply lookup_ge_None in Hpq. apply lookup_lt_Some in Hk. lia.
  - intros p1 p2 Hp1 Hp2 Hch.
    assert ((p1, p2) ∈ compatible_pairs catalog) as [k Hk]%list_elem_of_lookup
      by by apply compatible_pairs_elem.
    destruct (Hpairs k _ Hk) as (r & Hr & Hc).
    exists r. eexists. split; [|exact Hc]. apply list_elem_of_lookup. eauto.
Qed.

Lemma ordered_pairs_length catalog :
  length (ordered_pairs catalog) = (length catalog * length catalog)%nat.
Proof.
  unfold ordered_pairs.
  assert (∀ inner : list (Progression Extra),
            length (p1 ← catalog; pair p1 <$> inner) =
            (length catalog * length inner)%nat) as Hgen; [|apply Hgen].
  intros inner. induction catalog as [|p catalog IH]; [done|].
  rewrite bind_cons, length_app, length_fmap, IH. simpl. lia.
Qed.

(** The enumeration returns at most one record per ordered pair of
    positions: no more than the square of the size of the catalogue. *)
Theorem generate_length_bound catalog :
  catalog ≠ [] → Forall well_formed catalog →
  ∃ out, generate_combined_progressions catalog = Ok out ∧
         (length out ≤ length catalog * length catalog)%nat.
Proof.
  intros Hne Hwf.
  destruct (generate_returns_on_well_formed catalog Hne Hwf)
    as (out & Hgen & Hlen).
  exists out. split; [done|]. rewrite Hlen, <- ordered_pairs_length.
  apply length_filter.
Qed.

(** The ids of the expanded catalogue: when no two records of the catalogue
    share an id, no two records of what [main] writes do. *)
Theorem expanded_ids_unique catalog :
  catalog ≠ [] → Forall well_formed catalog → NoDup (id <$> catalog) →
  ∃ out, generate_combined_progressions catalog = Ok out ∧
         (main catalog).1 = Some (catalog ++ out) ∧
         NoDup (id <$> (catalog ++ out)).
Proof.
  intros Hne Hwf Hnd.
  destruct (generate_returns_on_well_formed catalog Hne Hwf)
    as (out & Hgen & _).
  exists out. split; [done|]. split; [unfold main; by rewrite Hgen|].
  destruct (generate_Ok_ids _ _ Hgen) as (base & Hle & Hid).
  rewrite fmap_app. apply NoDup_app. split; [done|]. split.
  - intros x (p & -> & Hp)%list_elem_of_fmap (r & Hx & Hr)%list_elem_of_fmap.
    apply list_elem_of_lookup in Hr as [k Hk].
    rewrite (Hid _ _ Hk) in Hx. specialize (Hle p _ Hp Hx). lia.
  - apply NoDup_alt. intros i j x. rewrite !list_lookup_fmap.
    destruct (out !! i) as [ri|] eqn:Hi; [|done].
    destruct (out !! j) as [rj|] eqn:Hj; [|done].
    simpl. intros [= <-] [= Hij].
    rewrite (Hid _ _ Hi), (Hid _ _ Hj) in Hij. injection Hij. lia.
Qed.

Lemma Zpos_of_nat (n : nat) : n ≠ 0%nat → Z.pos (Pos.of_nat n) = Z.of_nat n.
Proof.
  intros Hn. rewrite <- (Nat2Pos.id n Hn) at 2. by rewrite positive_nat_Z.
Qed.

(** What [main] writes and reports on a non-empty catalogue of well-formed
    records: the records it read, in their order, followed by the new
    ones, and a growth factor, the new size over the old, that is at least
    one. *)
Theorem main_writes_and_reports catalog :
  catalog ≠ [] → Forall well_formed catalog →
  ∃ out,
    generate_combined_progressions catalog = Ok out ∧
    main catalog =
      (Some (catalog ++ out),
       Ok (Qmake (Z.of_nat (length catalog + length out))
                 (Pos.of_nat (length catalog)))) ∧
    Qle 1 (Qmake (Z.of_nat (length catalog + length out))
                 (Pos.of_nat (length catalog))).
Proof.
  intros Hne Hwf.
  destruct (generate_returns_on_well_formed catalog Hne Hwf)
    as (out & Hgen & _).
  assert (length catalog ≠ 0%nat) as Hlen by by destruct catalog.
  exists out. split; [done|]. split.
  - unfold main. rewrite Hgen, length_app. unfold truediv.
    by destruct (decide (length catalog = 0%nat)).
  - unfold Qle. simpl. rewrite Zpos_of_nat by done. lia.
Qed.

Lemma generate_output_well_formed catalog (out : list (Progression Extra)) :
  Forall well_formed catalog →
  generate_combined_progressions catalog = Ok out → Forall well_formed out.
Proof.
  intros Hwf (ids & base & _ & _ & Hout)%generate_Ok_spec.
  destruct (combine_all_Ok _ _ _ Hout) as [Hlen Hpairs].
  rewrite Forall_forall in Hwf.
  apply Forall_forall. intros r [k Hk]%list_elem_of_lookup.
  destruct (compatible_pairs catalog !! k) as [[p1 p2]|] eqn:Hpq.
  - destruct (Hpairs k _ Hpq) as (r' & Hr' & Hc).
    assert (r = r') as <- by congruence.
    assert ((p1, p2) ∈ compatible_pairs catalog) as Hin
      by (apply list_elem_of_lookup; eauto).
    apply compatible_pairs_elem in Hin as (Hp1%Hwf & Hp2%Hwf & _).
    destruct (well_formed_root_chords p1 Hp1) as (r1 & c1 & Hr1 & Hc1).
    destruct (well_formed_root_chords p2 Hp2) as (r2 & c2 & Hr2 & Hc2).
    destruct (combine_summary p1 p2 (base + 1 + Z.of_nat k) r1 r2 c1 c2)
      as (r'' & ys & Hr'' & Hwr & _); [done..|].
    simpl in Hc. congruence.
  - apply lookup_ge_None in Hpq. apply lookup_lt_Some in Hk. lia.
Qed.

(** A second run: what [main] writes for a non-empty catalogue of
    well-formed records is again such a catalogue, and the enumeration
    returns on it. *)
Theorem expanded_catalog_runs_again catalog :
  catalog ≠ [] → Forall well_formed catalog →
  ∃ out out',
    (main catalog).1 = Some (catalog ++ out) ∧
    Forall well_formed (catalog ++ out) ∧
    generate_combined_progressions (catalog ++ out) = Ok out'.
Proof.
  intros Hne Hwf.
  destruct (generate_returns_on_well_formed catalog Hne Hwf)
    as (out & Hgen & _).
  assert (Forall well_formed (catalog ++ out)) as Hwf'.
  { apply Forall_app. split; [done|]. by eapply generate_output_well_formed. }
  destruct (generate_returns_on_well_formed (catalog ++ out))
    as (out' & Hgen' & _); [by destruct catalog | done |].
  exists out, out'. split; [unfold main; by rewrite Hgen | done].
Qed.

End RunMore.

(** ** The further properties at the sample records *)

Lemma combine_id_and_label_witness :
  ∃ r, combine_progressions (order := forward_order) prog_A prog_B 3 = Ok r ∧
       id r = Some 3 ∧
       modulation_technique r =
         Some ("combo " +:+ "pivot" +:+ " " +:+ "chromatic").
Proof.
  apply (combine_id_and_label prog_A prog_B 3 "pivot" "chromatic");
    [compute_done | reflexivity | reflexivity].
Defined.

Lemma combine_style_union_witness :
  ∃ r sr, combine_progressions (order := backward_order) prog_A prog_B 3 = Ok r ∧
          style r = Some sr ∧ NoDup sr ∧
          ∀ x, x ∈ sr ↔ x ∈ ["jazz"; "pop"] ∨ x ∈ ["classical"; "jazz"].
Proof.
  apply (combine_style_union prog_A prog_B 3
           ["jazz"; "pop"] ["classical"; "jazz"]);
    [compute_done | reflexivity | reflexivity].
Defined.

Lemma combine_comment_marker_witness :
  ∃ r rc, combine_progressions (order := forward_order) prog_A prog_noted 3 = Ok r ∧
    chords r = Some rc ∧
    ∀ (i : nat) (c : Chord unit), [chord_at 0; chord_noted] !! i = Some c →
      ∃ c', rc !! (2 - 1 + i)%nat = Some c' ∧
            comment c' = String.app "[from prog2] " <$> comment c ∧
            payload c' = payload c.
Proof.
  apply (combine_comment_marker prog_A prog_noted 3
           [chord_at 0; chord_at 2] [chord_at 0; chord_noted]);
    [compute_done | reflexivity | reflexivity].
Defined.

Lemma combine_pitch_range_witness :
  ∃ r rc tr, combine_progressions (order := forward_order) prog_A prog_noted 3 = Ok r ∧
    chords r = Some rc ∧ to_root r = Some tr ∧ 0 ≤ tr < 12 ∧
    Forall in_pitch_range (drop (2 - 1) rc) ∧
    (Forall in_pitch_range [chord_at 0; chord_at 2] →
     Forall in_pitch_range rc).
Proof.
  apply (combine_pitch_range prog_A prog_noted 3 [chord_at 0; chord_at 2]);
    [compute_done | reflexivity].
Defined.

Lemma combine_well_formed_witness :
  ∃ r, combine_progressions (order := forward_order) prog_A prog_B 3 = Ok r ∧
       well_formed r.
Proof. apply (combine_well_formed prog_A prog_B 3); compute_done. Defined.

Lemma combine_keeps_compatibility_witness :
  ∃ r, combine_progressions (order := forward_order) prog_A prog_B 3 = Ok r ∧
       ∀ x : Progression unit,
         are_compatible x r = are_compatible x prog_A ∧
         are_compatible r x = are_compatible prog_B x.
Proof. apply (combine_keeps_compatibility prog_A prog_B 3); compute_done. Defined.

Lemma combine_associative_on_roots_witness :
  ∃ ab bc l r cl cr,
    combine_progressions (order := forward_order) prog_A prog_B 10 = Ok ab ∧
    combine_progressions (order := forward_order) prog_B prog_noted 11 = Ok bc ∧
    combine_progressions (order := forward_order) ab prog_noted 12 = Ok l ∧
    combine_progressions (order := forward_order) prog_A bc 12 = Ok r ∧
    from_mode l = from_mode r ∧ to_mode l = to_mode r ∧
    to_root l = to_root r ∧
    chords l = Some cl ∧ chords r = Some cr ∧
    key_root <$> cl = key_root <$> cr.
Proof.
  apply (combine_associative_on_roots prog_A prog_B prog_noted 12 10 11
           [chord_at 0; chord_at 3; chord_at 5]);
    [compute_done | compute_done | compute_done | reflexivity | discriminate].
Defined.

Lemma generate_sound_and_complete_witness :
  ∃ out, generate_combined_progressions (order := forward_order)
           [prog_A; prog_B; prog_loop] = Ok out ∧
    (∀ r, r ∈ out →
       ∃ p1 p2 (n : Z), p1 ∈ [prog_A; prog_B; prog_loop] ∧
         p2 ∈ [prog_A; prog_B; prog_loop] ∧ chains p1 p2 ∧
         combine_progressions (order := forward_order) p1 p2 n = Ok r) ∧
    (∀ p1 p2, p1 ∈ [prog_A; prog_B; prog_loop] →
       p2 ∈ [prog_A; prog_B; prog_loop] → chains p1 p2 →
       ∃ r (n : Z), r ∈ out ∧
         combine_progressions (order := forward_order) p1 p2 n = Ok r).
Proof.
  apply (generate_sound_and_complete [prog_A; prog_B; prog_loop]);
    [discriminate | compute_done].
Defined.

Lemma generate_length_bound_witness :
  ∃ out, generate_combined_progressions (order := forward_order)
           [prog_A; prog_B; prog_loop] = Ok out ∧
         (length out ≤ 3 * 3)%nat.
Proof.
  apply (generate_length_bound [prog_A; prog_B; prog_loop]);
    [discriminate | compute_done].
Defined.

Lemma expanded_ids_unique_witness :
  ∃ out, generate_combined_progressions (order := forward_order)
           [prog_A; prog_B; prog_loop] = Ok out ∧
         (main (order := forward_order) [prog_A; prog_B; prog_loop]).1 =
           Some ([prog_A; prog_B; prog_loop] ++ out) ∧
         NoDup (id <$> ([prog_A; prog_B; prog_loop] ++ out)).
Proof.
  apply (expanded_ids_unique [prog_A; prog_B; prog_loop]);
    [discriminate | compute_done | compute_done].
Defined.

Lemma main_writes_and_reports_witness :
  ∃ out,
    generate_combined_progressions (order := forward_order)
      [prog_A; prog_B; prog_loop] = Ok out ∧
    main (order := forward_order) [prog_A; prog_B; prog_loop] =
      (Some ([prog_A; prog_B; prog_loop] ++ out),
       Ok (Qmake (Z.of_nat (3 + length out)) (Pos.of_nat 3))) ∧
    Qle 1 (Qmake (Z.of_nat (3 + length out)) (Pos.of_nat 3)).
Proof.
  apply (main_writes_and_reports [prog_A; prog_B; prog_loop]);
    [discriminate | compute_done].
Defined.

Lemma expanded_catalog_runs_again_witness :
  ∃ out out',
    (main (order := forward_order) [prog_A; prog_B; prog_loop]).1 =
      Some ([prog_A; prog_B; prog_loop] ++ out) ∧
    Forall well_formed ([prog_A; prog_B; prog_loop] ++ out) ∧
    generate_combined_progressions (order := forward_order)
      ([prog_A; prog_B; prog_loop] ++ out) = Ok out'.
Proof.
  apply (expanded_catalog_runs_again [prog_A; prog_B; prog_loop]);
    [discriminate | compute_done].
Defined.

(** ** What an exception of a run says *)

Section Reports.

Context {Extra : Type} `{order : SetOrder}.

Implicit Types (p : Progression Extra) (catalog ps : list (Progression Extra)).











End Reports.

